(** * tau: the Pratt parser and the [Times] / [Less] evaluators

    A shallow embedding of [parser/parser.go] and of the two node variants
    of package [ast] ([Times] and [Less]), with the properties of the
    interpreter's specification stated and proved over it.

    The Go packages [obj], [item], [ast] and [parser] become the modules of
    the same names. *)

From Stdlib Require Import ZArith List String Ascii Bool Lia PeanoNat.
From Stdlib Require Import Floats.PrimFloat.
Import ListNotations.

#[local] Set Warnings "-register-all".

#[local] Open Scope string_scope.
#[local] Open Scope Z_scope.

(** Go's [int64]: a [Z] wrapped into [-2^63, 2^63). *)
Definition int64 (z : Z) : Z := (z + 2 ^ 63) mod 2 ^ 64 - 2 ^ 63.

(* ================================================================== *)
(** * Package [obj]: runtime values *)

Module obj.

(** Modelled from the spec: the kind discriminator [obj.Type] of a value
    (package [obj] is imported by the sources but is not among them).  The
    sources name [INT] and [FLOAT]; the other kinds follow the value model
    of the specification. *)
Inductive Type_ : Set :=
| INT | FLOAT | BOOL | STRING | NULL | LIST | FUNCTION | RETURN | ERROR.

Definition Type_eqb (a b : Type_) : bool :=
  match a, b with
  | INT, INT | FLOAT, FLOAT | BOOL, BOOL | STRING, STRING | NULL, NULL
  | LIST, LIST | FUNCTION, FUNCTION | RETURN, RETURN | ERROR, ERROR => true
  | _, _ => false
  end.

(** Modelled from the spec: the tagged sum of runtime values.  A closure
    shares its body and its captured environment by reference, so the
    [Function] value carries a handle to them. *)
Inductive Object : Type :=
| Integer (v : Z)
| Float (v : float)
| Boolean (v : bool)
| String (v : string)
| Null
| List (elems : list Object)
| Function (params : list string) (closure : nat)
| ReturnValue (v : Object)
| Error (msg : string).

(** Modelled from the spec: [o.Type()], the kind of a value. *)
Definition Type_of (o : Object) : Type_ :=
  match o with
  | Integer _ => INT
  | Float _ => FLOAT
  | Boolean _ => BOOL
  | String _ => STRING
  | Null => NULL
  | List _ => LIST
  | Function _ _ => FUNCTION
  | ReturnValue _ => RETURN
  | Error _ => ERROR
  end.

(** Modelled from the spec: the constructors [obj.NewInteger],
    [obj.NewFloat] and [obj.ParseBool] build the value of their kind;
    [obj.NewError] is applied to the already formatted message. *)
Definition NewInteger (v : Z) : Object := Integer v.
Definition NewFloat (v : float) : Object := Float v.
Definition ParseBool (b : bool) : Object := Boolean b.
Definition NewError (msg : string) : Object := Error msg.

(** Modelled from the spec: the type assertions of a value to
    [obj.Integer] and to [obj.Float], followed by [Val()]; a failed
    assertion panics ([None]). *)
Definition asInteger (o : Object) : option Z :=
  match o with Integer v => Some v | _ => None end.
Definition asFloat (o : Object) : option float :=
  match o with Float v => Some v | _ => None end.

Lemma Type_eqb_eq a b : Type_eqb a b = true <-> a = b.
Proof. destruct a, b; simpl; split; congruence. Qed.

Lemma Type_eqb_refl a : Type_eqb a a = true.
Proof. now apply Type_eqb_eq. Qed.

Lemma Type_eqb_neq a b : Type_eqb a b = false <-> a <> b.
Proof.
  split.
  - intros H E. apply Type_eqb_eq in E. congruence.
  - intros H. destruct (Type_eqb a b) eqn:E; [apply Type_eqb_eq in E; contradiction | reflexivity].
Qed.

End obj.

(* ================================================================== *)
(** * Package [ast]: syntax trees, [Times] and [Less] *)

Module ast.

(** Modelled from the spec: the node variants.  The sources declare
    [Times] and [Less]; the other variants are those the parser builds
    through the [ast.New...] constructors, with the fields the
    specification lists.  [Nil] is Go's nil [ast.Node]: parse functions
    return it on failure and it can sit in a child slot.  Slices are lists
    (a nil slice is the empty list). *)
Inductive Node : Type :=
| Nil
| Identifier (name : string)
| Integer (v : Z)
| Float (v : float)
| String (v : string)
| Boolean (v : bool)
| PrefixMinus (n : Node)
| Bang (n : Node)
| Plus (l r : Node)
| Minus (l r : Node)
| Times (l r : Node)
| Divide (l r : Node)
| Equals (l r : Node)
| NotEquals (l r : Node)
| Less (l r : Node)
| Greater (l r : Node)
| LessEq (l r : Node)
| GreaterEq (l r : Node)
| And (l r : Node)
| Or (l r : Node)
| Assign (l r : Node)
| PlusAssign (l r : Node)
| MinusAssign (l r : Node)
| DivideAssign (l r : Node)
| TimesAssign (l r : Node)
| IfExpr (cond body alt : Node)
| Function (params : list string) (body : Node)
| Call (fn : Node) (args : list Node)
| List (nodes : list Node)
| Index (list expr : Node)
| Return (n : Node)
| Block (stmts : list Node).

Definition NewTimes (l r : Node) : Node := Times l r.
Definition NewLess (l r : Node) : Node := Less l r.

Definition isNil (n : Node) : bool :=
  match n with Nil => true | _ => false end.

(** Modelled from the spec: [isError] (a helper of package [ast] that is
    not among the sources) tells whether a value is an [Error]. *)
Definition isError (o : obj.Object) : bool :=
  obj.Type_eqb (obj.Type_of o) obj.ERROR.

Section Eval.

(** The state reachable through the [*obj.Env] pointer handed to [Eval]:
    every evaluation reads and writes the same environment, so it is
    threaded through the calls. *)
Variable Env : Type.

(** [fmt]'s [%v] of a value and of a kind (their [String] methods). *)
Variable fmtObject : obj.Object -> string.
Variable fmtType : obj.Type_ -> string.

(** [Eval] and [String] of the node variants other than [Times] and
    [Less], whose files are not among the sources.  A call that panics or
    does not return yields [None]. *)
Variable EvalOther : Node -> Env -> option (obj.Object * Env).
Variable StringOther : Node -> string.

(** What [Times.Eval] does once both operands have been evaluated
    (times.go, lines 21 to 48). *)
Definition Times_apply (left right : obj.Object) : option obj.Object :=
  if isError left then Some left
  else if isError right then Some right
  else if negb (obj.Type_eqb (obj.Type_of left) (obj.Type_of right)) then
    Some (obj.NewError
            ("invalid operation " ++ fmtObject left ++ " * " ++ fmtObject right
             ++ " (mismatched types " ++ fmtType (obj.Type_of left)
             ++ " and " ++ fmtType (obj.Type_of right) ++ ")"))
  else
    match obj.Type_of left with
    | obj.INT =>
        match obj.asInteger left, obj.asInteger right with
        | Some l, Some r => Some (obj.NewInteger (int64 (l * r)))
        | _, _ => None
        end
    | obj.FLOAT =>
        match obj.asFloat left, obj.asFloat right with
        | Some l, Some r => Some (obj.NewFloat (PrimFloat.mul l r))
        | _, _ => None
        end
    | _ =>
        Some (obj.NewError
                ("unsupported operator '*' for type " ++ fmtType (obj.Type_of left)))
    end.

(** The same for [Less.Eval] (lines 74 to 101 of its file). *)
Definition Less_apply (left right : obj.Object) : option obj.Object :=
  if isError left then Some left
  else if isError right then Some right
  else if negb (obj.Type_eqb (obj.Type_of left) (obj.Type_of right)) then
    Some (obj.NewError
            ("invalid operation " ++ fmtObject left ++ " < " ++ fmtObject right
             ++ " (mismatched types " ++ fmtType (obj.Type_of left)
             ++ " and " ++ fmtType (obj.Type_of right) ++ ")"))
  else
    match obj.Type_of left with
    | obj.INT =>
        match obj.asInteger left, obj.asInteger right with
        | Some l, Some r => Some (obj.ParseBool (l <? r))
        | _, _ => None
        end
    | obj.FLOAT =>
        match obj.asFloat left, obj.asFloat right with
        | Some l, Some r => Some (obj.ParseBool (PrimFloat.ltb l r))
        | _, _ => None
        end
    | _ =>
        Some (obj.NewError
                ("unsupported operator '<' for type " ++ fmtType (obj.Type_of left)))
    end.

(** [Times.Eval]: the left operand is evaluated, then the right one in the
    environment the left one leaves, and only then are the two values
    looked at.  [Eval] is the method of the operands. *)
Definition Times_Eval (Eval : Node -> Env -> option (obj.Object * Env))
    (l r : Node) (env : Env) : option (obj.Object * Env) :=
  match Eval l env with
  | None => None
  | Some (lval, env1) =>
      match Eval r env1 with
      | None => None
      | Some (rval, env2) =>
          match Times_apply lval rval with
          | None => None
          | Some o => Some (o, env2)
          end
      end
  end.

(** [Less.Eval] *)
Definition Less_Eval (Eval : Node -> Env -> option (obj.Object * Env))
    (l r : Node) (env : Env) : option (obj.Object * Env) :=
  match Eval l env with
  | None => None
  | Some (lval, env1) =>
      match Eval r env1 with
      | None => None
      | Some (rval, env2) =>
          match Less_apply lval rval with
          | None => None
          | Some o => Some (o, env2)
          end
      end
  end.

(** [n.Eval(env)]: the dispatch on the variant of [n]; calling a method
    of the nil node panics. *)
Fixpoint Node_Eval (n : Node) (env : Env) : option (obj.Object * Env) :=
  match n with
  | Nil => None
  | Times l r => Times_Eval Node_Eval l r env
  | Less l r => Less_Eval Node_Eval l r env
  | other => EvalOther other env
  end.

(** [fmt]'s [%v] of a node: its [String] method, and ["<nil>"] for the nil
    interface value. *)
Definition fmtNodeWith (String_ : Node -> string) (n : Node) : string :=
  match n with
  | Nil => "<nil>"
  | _ => String_ n
  end.

(** [Times.String] and [Less.String]; [fmtv] is [%v] on the children. *)
Definition Times_String (fmtv : Node -> string) (l r : Node) : string :=
  "(" ++ fmtv l ++ " * " ++ fmtv r ++ ")".

Definition Less_String (fmtv : Node -> string) (l r : Node) : string :=
  "(" ++ fmtv l ++ " < " ++ fmtv r ++ ")".

(** [n.String()] *)
Fixpoint Node_String (n : Node) : string :=
  match n with
  | Times l r => Times_String (fmtNodeWith Node_String) l r
  | Less l r => Less_String (fmtNodeWith Node_String) l r
  | other => StringOther other
  end.

Definition fmtNode : Node -> string := fmtNodeWith Node_String.

(** The two binary variants of the sources. *)
Definition is_binary (n l r : Node) : Prop := n = Times l r \/ n = Less l r.

(** [evaluates n env s v]: while [n] is evaluated from [env], its
    sub-expression [s] (reached through [Times] and [Less] nodes, [n]
    itself included) is evaluated and yields [v]. *)
Inductive evaluates : Node -> Env -> Node -> obj.Object -> Prop :=
| ev_here n env v env' :
    Node_Eval n env = Some (v, env') -> evaluates n env n v
| ev_left n l r env s v :
    is_binary n l r -> evaluates l env s v -> evaluates n env s v
| ev_right n l r env lv env1 s v :
    is_binary n l r -> Node_Eval l env = Some (lv, env1) ->
    evaluates r env1 s v -> evaluates n env s v.

(** [first_error n env e]: [e] is the first Error, in evaluation order
    (left to right, operands before their node), that a sub-expression of
    [n] evaluates to from [env].  It is found in the left operand; or in
    the right operand when the left one evaluates to no Error; or it is
    the value of [n] itself when [n] is no binary node or both its
    operands evaluate to no Error. *)
Inductive first_error : Node -> Env -> obj.Object -> Prop :=
| fe_left n l r env e :
    is_binary n l r -> first_error l env e -> first_error n env e
| fe_right n l r env lv env1 e :
    is_binary n l r -> Node_Eval l env = Some (lv, env1) ->
    isError lv = false -> first_error r env1 e -> first_error n env e
| fe_binary n l r env lv env1 rv env2 e :
    is_binary n l r -> Node_Eval l env = Some (lv, env1) ->
    Node_Eval r env1 = Some (rv, env2) ->
    isError lv = false -> isError rv = false ->
    Node_Eval n env = Some (e, env2) -> isError e = true ->
    first_error n env e
| fe_other n env e env' :
    (forall l r, ~ is_binary n l r) ->
    Node_Eval n env = Some (e, env') -> isError e = true ->
    first_error n env e.

(* ------------------------------------------------------------------ *)
(** ** Properties of [Times] and [Less] *)

Lemma isError_Error o : isError o = true <-> exists m, o = obj.Error m.
Proof.
  unfold isError. rewrite obj.Type_eqb_eq. split.
  - destruct o; simpl; try discriminate. eauto.
  - intros [m ->]. reflexivity.
Qed.

Lemma isError_false o : isError o = false <-> obj.Type_of o <> obj.ERROR.
Proof. unfold isError. apply obj.Type_eqb_neq. Qed.

Lemma Times_Eval_unfold l r env lv env1 rv env2 :
  Node_Eval l env = Some (lv, env1) ->
  Node_Eval r env1 = Some (rv, env2) ->
  Node_Eval (Times l r) env =
    match Times_apply lv rv with Some o => Some (o, env2) | None => None end.
Proof. intros Hl Hr. cbn [Node_Eval]. unfold Times_Eval. rewrite Hl, Hr. reflexivity. Qed.

Lemma Less_Eval_unfold l r env lv env1 rv env2 :
  Node_Eval l env = Some (lv, env1) ->
  Node_Eval r env1 = Some (rv, env2) ->
  Node_Eval (Less l r) env =
    match Less_apply lv rv with Some o => Some (o, env2) | None => None end.
Proof. intros Hl Hr. cbn [Node_Eval]. unfold Less_Eval. rewrite Hl, Hr. reflexivity. Qed.

(** A binary node has a value only if both operands have one: the right
    operand is evaluated whatever the left one gave. *)
Lemma binary_Eval_inv n l r env v env' :
  is_binary n l r ->
  Node_Eval n env = Some (v, env') ->
  exists lv env1 rv,
    Node_Eval l env = Some (lv, env1) /\ Node_Eval r env1 = Some (rv, env').
Proof.
  intros [-> | ->]; cbn [Node_Eval]; unfold Times_Eval, Less_Eval;
    destruct (Node_Eval l env) as [[lv env1] |]; try discriminate;
    destruct (Node_Eval r env1) as [[rv env2] |] eqn:Hr; try discriminate.
  - destruct (Times_apply lv rv); try discriminate.
    intros [= _ <-]. eauto.
  - destruct (Less_apply lv rv); try discriminate.
    intros [= _ <-]. eauto.
Qed.

Lemma binary_Eval_left_error n l r env lv env1 rv env2 :
  is_binary n l r ->
  Node_Eval l env = Some (lv, env1) ->
  Node_Eval r env1 = Some (rv, env2) ->
  isError lv = true ->
  Node_Eval n env = Some (lv, env2).
Proof.
  intros [-> | ->] Hl Hr He.
  - rewrite (Times_Eval_unfold _ _ _ _ _ _ _ Hl Hr). unfold Times_apply.
    now rewrite He.
  - rewrite (Less_Eval_unfold _ _ _ _ _ _ _ Hl Hr). unfold Less_apply.
    now rewrite He.
Qed.

Lemma binary_Eval_right_error n l r env lv env1 rv env2 :
  is_binary n l r ->
  Node_Eval l env = Some (lv, env1) ->
  Node_Eval r env1 = Some (rv, env2) ->
  isError lv = false -> isError rv = true ->
  Node_Eval n env = Some (rv, env2).
Proof.
  intros [-> | ->] Hl Hr Hel Her.
  - rewrite (Times_Eval_unfold _ _ _ _ _ _ _ Hl Hr). unfold Times_apply.
    now rewrite Hel, Her.
  - rewrite (Less_Eval_unfold _ _ _ _ _ _ _ Hl Hr). unfold Less_apply.
    now rewrite Hel, Her.
Qed.

(** An [Error] anywhere below makes the whole expression an [Error]. *)
Lemma evaluates_error_up n env s e :
  evaluates n env s e -> isError e = true ->
  forall v env', Node_Eval n env = Some (v, env') -> isError v = true.
Proof.
  induction 1 as [n env v0 env0 H0 | n l r env s v0 Hb Hs IH
                 | n l r env lv env1 s v0 Hb Hl Hs IH]; intros He v env' Hn.
  - rewrite H0 in Hn. inversion Hn; subst; assumption.
  - destruct (binary_Eval_inv _ _ _ _ _ _ Hb Hn) as (lv & env1 & rv & Hl & Hr).
    specialize (IH He _ _ Hl).
    rewrite (binary_Eval_left_error _ _ _ _ _ _ _ _ Hb Hl Hr IH) in Hn.
    inversion Hn; subst; assumption.
  - destruct (binary_Eval_inv _ _ _ _ _ _ Hb Hn) as (lv' & env1' & rv & Hl' & Hr).
    rewrite Hl in Hl'. injection Hl' as <- <-.
    specialize (IH He _ _ Hr).
    destruct (isError lv) eqn:Hlv.
    + rewrite (binary_Eval_left_error _ _ _ _ _ _ _ _ Hb Hl Hr Hlv) in Hn.
      inversion Hn; subst; assumption.
    + rewrite (binary_Eval_right_error _ _ _ _ _ _ _ _ Hb Hl Hr Hlv IH) in Hn.
      inversion Hn; subst; assumption.
Qed.

Lemma first_error_isError n env e : first_error n env e -> isError e = true.
Proof. induction 1; assumption. Qed.

(** The first Error is the value of the whole expression. *)
Lemma first_error_value n env e :
  first_error n env e ->
  forall v env', Node_Eval n env = Some (v, env') -> v = e.
Proof.
  induction 1 as [n l r env e Hb Hl IH
                 | n l r env lv env1 e Hb Hl Hlv Hr IH
                 | n l r env lv env1 rv env2 e Hb Hl Hr Hlv Hrv Hn He
                 | n env e env0 Hnb Hn He]; intros v env' Hv.
  - destruct (binary_Eval_inv _ _ _ _ _ _ Hb Hv) as (lv & env1 & rv & El & Er).
    pose proof (IH _ _ El) as ->.
    pose proof (first_error_isError _ _ _ Hl) as He.
    rewrite (binary_Eval_left_error _ _ _ _ _ _ _ _ Hb El Er He) in Hv.
    now inversion Hv.
  - destruct (binary_Eval_inv _ _ _ _ _ _ Hb Hv) as (lv' & env1' & rv & El & Er).
    rewrite Hl in El. inversion El; subst lv' env1'.
    pose proof (IH _ _ Er) as ->.
    pose proof (first_error_isError _ _ _ Hr) as He.
    rewrite (binary_Eval_right_error _ _ _ _ _ _ _ _ Hb Hl Er Hlv He) in Hv.
    now inversion Hv.
  - rewrite Hn in Hv. now inversion Hv.
  - rewrite Hn in Hv. now inversion Hv.
Qed.

(** Neither operation panics on its type assertions: the kinds were
    compared before. *)
Lemma Times_apply_total lv rv : exists o, Times_apply lv rv = Some o.
Proof.
  unfold Times_apply.
  destruct (isError lv); [eauto |]. destruct (isError rv); [eauto |].
  destruct (obj.Type_eqb (obj.Type_of lv) (obj.Type_of rv)) eqn:E; simpl; [| eauto].
  apply obj.Type_eqb_eq in E.
  destruct lv, rv; simpl in *; try discriminate; eauto.
Qed.

Lemma Less_apply_total lv rv : exists o, Less_apply lv rv = Some o.
Proof.
  unfold Less_apply.
  destruct (isError lv); [eauto |]. destruct (isError rv); [eauto |].
  destruct (obj.Type_eqb (obj.Type_of lv) (obj.Type_of rv)) eqn:E; simpl; [| eauto].
  apply obj.Type_eqb_eq in E.
  destruct lv, rv; simpl in *; try discriminate; eauto.
Qed.

Lemma binary_Eval_total n l r env lv env1 rv env2 :
  is_binary n l r ->
  Node_Eval l env = Some (lv, env1) ->
  Node_Eval r env1 = Some (rv, env2) ->
  exists v, Node_Eval n env = Some (v, env2).
Proof.
  intros [-> | ->] Hl Hr.
  - rewrite (Times_Eval_unfold _ _ _ _ _ _ _ Hl Hr).
    destruct (Times_apply_total lv rv) as [o ->]. eauto.
  - rewrite (Less_Eval_unfold _ _ _ _ _ _ _ Hl Hr).
    destruct (Less_apply_total lv rv) as [o ->]. eauto.
Qed.

(** When the right operand has no value the node has none, even if the
    left operand gave an [Error]. *)
Lemma binary_Eval_right_stuck n l r env lv env1 :
  is_binary n l r ->
  Node_Eval l env = Some (lv, env1) ->
  Node_Eval r env1 = None ->
  Node_Eval n env = None.
Proof.
  intros [-> | ->] Hl Hr; cbn [Node_Eval]; unfold Times_Eval, Less_Eval;
    now rewrite Hl, Hr.
Qed.

Lemma int64_in_range z : - 2 ^ 63 <= z < 2 ^ 63 -> int64 z = z.
Proof. intros H. unfold int64. rewrite Z.mod_small; lia. Qed.

(** C1.  [Times.Eval] on two operands that evaluate, without error, to
    values of the same kind: two Integers give the Integer of their
    [int64] product (the product itself when it fits), two Floats the
    Float of their product, and any other kind [T] gives the Error
    ["unsupported operator '*' for type T"]. *)
Theorem Times_Eval_same_kind l r env lv env1 rv env2 :
  Node_Eval l env = Some (lv, env1) ->
  Node_Eval r env1 = Some (rv, env2) ->
  isError lv = false -> isError rv = false ->
  obj.Type_of lv = obj.Type_of rv ->
  (forall a b, lv = obj.Integer a -> rv = obj.Integer b ->
     Node_Eval (Times l r) env = Some (obj.Integer (int64 (a * b)), env2)
     /\ (- 2 ^ 63 <= a * b < 2 ^ 63 ->
         Node_Eval (Times l r) env = Some (obj.Integer (a * b), env2)))
  /\ (forall a b, lv = obj.Float a -> rv = obj.Float b ->
     Node_Eval (Times l r) env = Some (obj.Float (PrimFloat.mul a b), env2))
  /\ (obj.Type_of lv <> obj.INT -> obj.Type_of lv <> obj.FLOAT ->
     Node_Eval (Times l r) env =
       Some (obj.Error ("unsupported operator '*' for type "
                          ++ fmtType (obj.Type_of lv)), env2)).
Proof.
  intros Hl Hr Hel Her Hty.
  rewrite (Times_Eval_unfold _ _ _ _ _ _ _ Hl Hr). unfold Times_apply.
  rewrite Hel, Her, Hty, obj.Type_eqb_refl. simpl. rewrite <- Hty.
  split; [| split].
  - intros a b -> ->. split; [reflexivity |].
    intros Hrange. cbn. now rewrite (int64_in_range _ Hrange).
  - intros a b -> ->. reflexivity.
  - intros Hi Hf. destruct lv; simpl in *; try reflexivity; congruence.
Qed.

(** C2, as amended.  A binary node evaluates both operands, left then
    right, before it looks at either value: its environment is the one the
    right operand leaves.  Its value is the left operand's Error when that
    is one, otherwise the right operand's Error when that is one; so an
    Error produced by any sub-expression makes the whole expression an
    Error, namely the first one in evaluation order. *)
Theorem binary_Eval_error_propagation n l r env lv env1 rv env2 :
  is_binary n l r ->
  Node_Eval l env = Some (lv, env1) ->
  Node_Eval r env1 = Some (rv, env2) ->
  (isError lv = true -> Node_Eval n env = Some (lv, env2))
  /\ (isError lv = false -> isError rv = true ->
      Node_Eval n env = Some (rv, env2))
  /\ (forall s e, evaluates n env s e -> isError e = true ->
      exists v, Node_Eval n env = Some (v, env2) /\ isError v = true)
  /\ (forall e, first_error n env e -> Node_Eval n env = Some (e, env2)).
Proof.
  intros Hb Hl Hr. split; [| split; [| split]].
  - intros He. exact (binary_Eval_left_error _ _ _ _ _ _ _ _ Hb Hl Hr He).
  - intros Hel Her. exact (binary_Eval_right_error _ _ _ _ _ _ _ _ Hb Hl Hr Hel Her).
  - intros s e Hs He.
    destruct (binary_Eval_total _ _ _ _ _ _ _ _ Hb Hl Hr) as [v Hv].
    exists v. split; [assumption |].
    now apply (evaluates_error_up _ _ _ _ Hs He v env2).
  - intros e He.
    destruct (binary_Eval_total _ _ _ _ _ _ _ _ Hb Hl Hr) as [v Hv].
    now rewrite <- (first_error_value _ _ _ He _ _ Hv).
Qed.

(** C3.  Operands that evaluate, without error, to values of different
    kinds [T1] and [T2] give the Error ["invalid operation L op R
    (mismatched types T1 and T2)"], with [*] for [Times] and [<] for
    [Less]; no product and no comparison is computed. *)
Theorem binary_Eval_mismatched_types l r env lv env1 rv env2 :
  Node_Eval l env = Some (lv, env1) ->
  Node_Eval r env1 = Some (rv, env2) ->
  isError lv = false -> isError rv = false ->
  obj.Type_of lv <> obj.Type_of rv ->
  Node_Eval (Times l r) env =
    Some (obj.Error ("invalid operation " ++ fmtObject lv ++ " * " ++ fmtObject rv
                     ++ " (mismatched types " ++ fmtType (obj.Type_of lv)
                     ++ " and " ++ fmtType (obj.Type_of rv) ++ ")"), env2)
  /\ Node_Eval (Less l r) env =
    Some (obj.Error ("invalid operation " ++ fmtObject lv ++ " < " ++ fmtObject rv
                     ++ " (mismatched types " ++ fmtType (obj.Type_of lv)
                     ++ " and " ++ fmtType (obj.Type_of rv) ++ ")"), env2).
Proof.
  intros Hl Hr Hel Her Hty. apply obj.Type_eqb_neq in Hty.
  rewrite (Times_Eval_unfold _ _ _ _ _ _ _ Hl Hr).
  rewrite (Less_Eval_unfold _ _ _ _ _ _ _ Hl Hr).
  unfold Times_apply, Less_apply. rewrite Hel, Her, Hty. simpl. split; reflexivity.
Qed.

(** C4.  [Less.Eval] on two operands that evaluate, without error, to
    values of the same kind: two Integers or two Floats give the Boolean
    of [l < r], any other kind [T] (String included) gives the Error
    ["unsupported operator '<' for type T"]; and whatever the operands,
    a value of [Less.Eval] is a Boolean or an Error. *)
Theorem Less_Eval_same_kind l r env :
  (forall lv env1 rv env2,
     Node_Eval l env = Some (lv, env1) ->
     Node_Eval r env1 = Some (rv, env2) ->
     isError lv = false -> isError rv = false ->
     obj.Type_of lv = obj.Type_of rv ->
     (forall a b, lv = obj.Integer a -> rv = obj.Integer b ->
        Node_Eval (Less l r) env = Some (obj.Boolean (a <? b), env2))
     /\ (forall a b, lv = obj.Float a -> rv = obj.Float b ->
        Node_Eval (Less l r) env = Some (obj.Boolean (PrimFloat.ltb a b), env2))
     /\ (obj.Type_of lv <> obj.INT -> obj.Type_of lv <> obj.FLOAT ->
        Node_Eval (Less l r) env =
          Some (obj.Error ("unsupported operator '<' for type "
                             ++ fmtType (obj.Type_of lv)), env2)))
  /\ (forall v env', Node_Eval (Less l r) env = Some (v, env') ->
        obj.Type_of v = obj.BOOL \/ obj.Type_of v = obj.ERROR).
Proof.
  split.
  - intros lv env1 rv env2 Hl Hr Hel Her Hty.
    rewrite (Less_Eval_unfold _ _ _ _ _ _ _ Hl Hr). unfold Less_apply.
    rewrite Hel, Her, Hty, obj.Type_eqb_refl. simpl. rewrite <- Hty.
    repeat split.
    + intros a b -> ->. reflexivity.
    + intros a b -> ->. reflexivity.
    + intros Hi Hf. destruct lv; simpl in *; try reflexivity; congruence.
  - intros v env' H. cbn [Node_Eval] in H. unfold Less_Eval in H.
    destruct (Node_Eval l env) as [[lv env1] |]; try discriminate.
    destruct (Node_Eval r env1) as [[rv env2] |]; try discriminate.
    destruct (Less_apply lv rv) as [o |] eqn:Ha; try discriminate.
    injection H as -> _. revert Ha. unfold Less_apply.
    destruct (isError lv) eqn:Hel.
    { intros [= <-]. right. now apply obj.Type_eqb_eq. }
    destruct (isError rv) eqn:Her.
    { intros [= <-]. right. now apply obj.Type_eqb_eq. }
    destruct (negb _); [intros [= <-]; now right |].
    destruct (obj.Type_of lv);
      try (intros [= <-]; now right);
      [ destruct (obj.asInteger lv), (obj.asInteger rv)
      | destruct (obj.asFloat lv), (obj.asFloat rv) ];
      try discriminate; intros [= <-]; now left.
Qed.

(** C9.  [Times] renders as ["(A * B)"] and [Less] as ["(A < B)"], with
    one space on each side of the operator, [A] and [B] being what the
    children's own [String] methods give. *)
Theorem binary_String_parenthesized A B :
  isNil A = false -> isNil B = false ->
  Node_String (Times A B) = "(" ++ Node_String A ++ " * " ++ Node_String B ++ ")"
  /\ Node_String (Less A B) = "(" ++ Node_String A ++ " < " ++ Node_String B ++ ")".
Proof.
  intros HA HB.
  assert (EA : fmtNodeWith Node_String A = Node_String A)
    by (destruct A; try reflexivity; discriminate).
  assert (EB : fmtNodeWith Node_String B = Node_String B)
    by (destruct B; try reflexivity; discriminate).
  cbn [Node_String]. unfold Times_String, Less_String.
  rewrite EA, EB. split; reflexivity.
Qed.

(* ------------------------------------------------------------------ *)
(** ** Further properties of [Times] and [Less] *)

Lemma int64_range z : - 2 ^ 63 <= int64 z < 2 ^ 63.
Proof.
  unfold int64.
  pose proof (Z.mod_pos_bound (z + 2 ^ 63) (2 ^ 64) ltac:(lia)). lia.
Qed.

Lemma Times_apply_kind lv rv o :
  Times_apply lv rv = Some o ->
  (obj.Type_of o = obj.INT \/ obj.Type_of o = obj.FLOAT
   \/ obj.Type_of o = obj.ERROR)
  /\ (forall z, o = obj.Integer z -> - 2 ^ 63 <= z < 2 ^ 63).
Proof.
  unfold Times_apply.
  destruct (isError lv) eqn:Hel.
  { intros [= <-]. split.
    - right; right. now apply obj.Type_eqb_eq.
    - intros z ->. discriminate. }
  destruct (isError rv) eqn:Her.
  { intros [= <-]. split.
    - right; right. now apply obj.Type_eqb_eq.
    - intros z ->. discriminate. }
  destruct (negb _).
  { intros [= <-]. split; [auto | intros z; discriminate]. }
  destruct (obj.Type_of lv);
    try (intros [= <-]; split; [auto | intros z; discriminate]).
  - destruct (obj.asInteger lv), (obj.asInteger rv); try discriminate.
    intros [= <-]. split; [auto |]. intros k [= <-]. apply int64_range.
  - destruct (obj.asFloat lv), (obj.asFloat rv); try discriminate.
    intros [= <-]. split; [auto | intros k; discriminate].
Qed.

(** X1.  Whatever its operands, a value of [Times.Eval] is an Integer, a
    Float or an Error, and an Integer it returns lies in the [int64]
    range. *)
Theorem Times_Eval_value_kind l r env v env' :
  Node_Eval (Times l r) env = Some (v, env') ->
  (obj.Type_of v = obj.INT \/ obj.Type_of v = obj.FLOAT
   \/ obj.Type_of v = obj.ERROR)
  /\ (forall z, v = obj.Integer z -> - 2 ^ 63 <= z < 2 ^ 63).
Proof.
  intros H. cbn [Node_Eval] in H. unfold Times_Eval in H.
  destruct (Node_Eval l env) as [[lv env1] |]; try discriminate.
  destruct (Node_Eval r env1) as [[rv env2] |]; try discriminate.
  destruct (Times_apply lv rv) as [o |] eqn:Ha; try discriminate.
  injection H as -> _. exact (Times_apply_kind _ _ _ Ha).
Qed.

(** X2.  A [Times] or [Less] node with a nil operand has no value: the
    call of [Eval] on the nil node panics, whatever the other operand
    does.  Its [String] still renders, with ["<nil>"] for the missing
    operand. *)
Theorem binary_nil_operand n l r env :
  is_binary n l r -> l = Nil \/ r = Nil ->
  Node_Eval n env = None
  /\ (n = Times l r ->
      Node_String n = "(" ++ fmtNode l ++ " * " ++ fmtNode r ++ ")")
  /\ (n = Less l r ->
      Node_String n = "(" ++ fmtNode l ++ " < " ++ fmtNode r ++ ")")
  /\ fmtNode Nil = "<nil>".
Proof.
  intros Hb Hnil. split; [| split; [| split]].
  - destruct Hb as [-> | ->]; cbn [Node_Eval]; unfold Times_Eval, Less_Eval;
      destruct Hnil as [-> | ->]; cbn [Node_Eval]; try reflexivity;
      destruct (Node_Eval l env) as [[lv env1] |]; reflexivity.
  - intros ->. reflexivity.
  - intros ->. reflexivity.
  - reflexivity.
Qed.

End Eval.

(* ------------------------------------------------------------------ *)
(** ** A concrete instance: literals, identifiers and assignments *)

(** Modelled from the spec: an environment with a single scope, a mapping
    from identifier to value ([obj.Env] is not among the sources). *)
Definition Scope : Type := list (string * obj.Object).

Fixpoint Scope_get (env : Scope) (name : string) : option obj.Object :=
  match env with
  | [] => None
  | (k, v) :: rest => if String.eqb k name then Some v else Scope_get rest name
  end.

Definition Scope_set (env : Scope) (name : string) (v : obj.Object) : Scope :=
  (name, v) :: env.

Definition literal (n : Node) : option obj.Object :=
  match n with
  | Integer v => Some (obj.Integer v)
  | Float v => Some (obj.Float v)
  | String v => Some (obj.String v)
  | Boolean v => Some (obj.Boolean v)
  | _ => None
  end.

(** Modelled from the spec: the evaluation of literals, of identifiers (a
    missing name yields [Error("identifier not found: N")]) and of the
    assignment of a literal to an identifier (it binds the name and yields
    the assigned value).  The [Eval] methods of these variants are not
    among the sources. *)
Definition specEval (n : Node) (env : Scope) : option (obj.Object * Scope) :=
  match n with
  | Identifier name =>
      match Scope_get env name with
      | Some v => Some (v, env)
      | None => Some (obj.Error ("identifier not found: " ++ name), env)
      end
  | Assign (Identifier name) r =>
      match literal r with
      | Some v => Some (v, Scope_set env name v)
      | None => None
      end
  | other =>
      match literal other with
      | Some v => Some (v, env)
      | None => None
      end
  end.

(** Renderings for the instance: names of the kinds, and the text of a
    String or Boolean value. *)
Definition specFmtType (t : obj.Type_) : string :=
  match t with
  | obj.INT => "int" | obj.FLOAT => "float" | obj.BOOL => "bool"
  | obj.STRING => "string" | obj.NULL => "null" | obj.LIST => "list"
  | obj.FUNCTION => "function" | obj.RETURN => "return" | obj.ERROR => "error"
  end.

Definition specFmtObject (o : obj.Object) : string :=
  match o with
  | obj.String v => v
  | obj.Boolean true => "true"
  | obj.Boolean false => "false"
  | obj.Error m => m
  | _ => "_"
  end.

Definition specString (n : Node) : string :=
  match n with
  | Identifier name => name
  | String v => v
  | _ => "_"
  end.

Definition specNode_Eval : Node -> Scope -> option (obj.Object * Scope) :=
  Node_Eval Scope specFmtObject specFmtType specEval.

(** [6 * 7] is [42]. *)
Lemma Times_Eval_same_kind_witness :
  specNode_Eval (Times (Integer 6) (Integer 7)) [] = Some (obj.Integer 42, []).
Proof.
  apply (proj1 (proj1 (Times_Eval_same_kind Scope specFmtObject specFmtType specEval
                  (Integer 6) (Integer 7) [] (obj.Integer 6) [] (obj.Integer 7) []
                  eq_refl eq_refl eq_refl eq_refl eq_refl) 6 7 eq_refl eq_refl)).
Defined.

(** ["a" * true] and ["a" < true] are mismatched. *)
Lemma binary_Eval_mismatched_types_witness :
  specNode_Eval (Times (String "a") (Boolean true)) [] =
    Some (obj.Error "invalid operation a * true (mismatched types string and bool)", [])
  /\ specNode_Eval (Less (String "a") (Boolean true)) [] =
    Some (obj.Error "invalid operation a < true (mismatched types string and bool)", []).
Proof.
  apply (binary_Eval_mismatched_types Scope specFmtObject specFmtType specEval
           (String "a") (Boolean true) [] (obj.String "a") [] (obj.Boolean true) []
           eq_refl eq_refl eq_refl eq_refl).
  discriminate.
Defined.

(** [2 < 3] is [true]. *)
Lemma Less_Eval_same_kind_witness :
  specNode_Eval (Less (Integer 2) (Integer 3)) [] = Some (obj.Boolean true, []).
Proof.
  apply (proj1 (proj1 (Less_Eval_same_kind Scope specFmtObject specFmtType specEval
                         (Integer 2) (Integer 3) [])
                  (obj.Integer 2) [] (obj.Integer 3) []
                  eq_refl eq_refl eq_refl eq_refl eq_refl) 2 3 eq_refl eq_refl).
Defined.

(** In [x * 1] with [x] unbound the left operand's Error is the value. *)
Lemma binary_Eval_error_propagation_witness :
  specNode_Eval (Times (Identifier "x") (Integer 1)) [] =
    Some (obj.Error "identifier not found: x", []).
Proof.
  apply (proj1 (binary_Eval_error_propagation Scope specFmtObject specFmtType specEval
                  (Times (Identifier "x") (Integer 1)) (Identifier "x") (Integer 1)
                  [] (obj.Error "identifier not found: x") [] (obj.Integer 1) []
                  (or_introl eq_refl) eq_refl eq_refl) eq_refl).
Defined.

(** [(a * b)] and [(a < b)]. *)
Lemma binary_String_parenthesized_witness :
  Node_String specString (Times (Identifier "a") (Identifier "b")) = "(a * b)"
  /\ Node_String specString (Less (Identifier "a") (Identifier "b")) = "(a < b)".
Proof.
  apply (binary_String_parenthesized specString (Identifier "a") (Identifier "b")
           eq_refl eq_refl).
Defined.

(** C2, the claim as stated fails.  In [x * (y = 5)] with [x] unbound the
    left operand evaluates to an Error and leaves the environment empty;
    [Times.Eval] does not return at once: the assignment on the right is
    evaluated too, and the environment it leaves binds [y]. *)
Lemma Times_Eval_not_short_circuit :
  specNode_Eval (Identifier "x") [] =
    Some (obj.Error "identifier not found: x", [])
  /\ specNode_Eval (Times (Identifier "x") (Assign (Identifier "y") (Integer 5))) [] =
    Some (obj.Error "identifier not found: x", [("y", obj.Integer 5)])
  /\ specNode_Eval (Times (Identifier "x") (Assign (Identifier "y") (Integer 5))) [] <>
    specNode_Eval (Identifier "x") [].
Proof. repeat split. discriminate. Qed.

(** [3 * 5] is the Integer [15], within range. *)
Lemma Times_Eval_value_kind_witness :
  obj.Type_of (obj.Integer 15) = obj.INT
  \/ obj.Type_of (obj.Integer 15) = obj.FLOAT
  \/ obj.Type_of (obj.Integer 15) = obj.ERROR.
Proof.
  apply (proj1 (Times_Eval_value_kind Scope specFmtObject specFmtType specEval
                  (Integer 3) (Integer 5) [] (obj.Integer 15) [] eq_refl)).
Defined.

(** [x * nil] has no value and renders as [(x * <nil>)]. *)
Lemma binary_nil_operand_witness :
  specNode_Eval (Times (Identifier "x") Nil) [] = None.
Proof.
  apply (proj1 (binary_nil_operand Scope specFmtObject specFmtType specEval
                  specString (Times (Identifier "x") Nil) (Identifier "x") Nil []
                  (or_introl eq_refl) (or_intror eq_refl))).
Defined.

End ast.

(* ================================================================== *)
(** * Package [item]: tokens *)

Module item.

(** Modelled from the spec: the token kinds (package [item] is imported by
    the parser but is not among the sources).  These are the kinds the
    parser names, which are also the kinds the specification lists. *)
Inductive Type_ : Set :=
| EOF | IDENT | INT | FLOAT | STRING
| ASSIGN | PLUS | MINUS | SLASH | ASTERISK | POWER | BANG
| EQ | NOT_EQ | LT | GT | LT_EQ | GT_EQ | AND | OR
| PLUS_ASSIGN | MINUS_ASSIGN | ASTERISK_ASSIGN | SLASH_ASSIGN
| COMMA | SEMICOLON | LPAREN | RPAREN | LBRACE | RBRACE | LBRACKET | RBRACKET
| FUNCTION | IF | ELSE | TRUE | FALSE | RETURN.

Definition Type_eq_dec (a b : Type_) : {a = b} + {a <> b}.
Proof. decide equality. Defined.

Definition Type_eqb (a b : Type_) : bool :=
  if Type_eq_dec a b then true else false.

(** Modelled from the spec: a token, its kind and its text. *)
Record Item : Set := mkItem { Typ : Type_; Val : string }.

(** Modelled from the spec: [i.Is(t)], whether the token is of kind [t]. *)
Definition Is (i : Item) (t : Type_) : bool := Type_eqb (Typ i) t.

Lemma Is_true_iff i t : Is i t = true <-> Typ i = t.
Proof. unfold Is, Type_eqb. destruct (Type_eq_dec (Typ i) t); split; congruence. Qed.

Lemma Is_false_iff i t : Is i t = false <-> Typ i <> t.
Proof. unfold Is, Type_eqb. destruct (Type_eq_dec (Typ i) t); split; congruence. Qed.

End item.

(* ================================================================== *)
(** * Package [parser]: the Pratt parser *)

Module parser.

(** The parser's mutable state.  The two dispatch tables of the Go struct
    are written once, by [newParser], and never afterwards: they are the
    constants [prefixParsers] and [infixParsers] below. *)
Record Parser : Type := mkParser {
  cur : item.Item;
  peek : item.Item;
  items : list item.Item;
  errs : list string
}.

(** Methods of [*Parser] are state transformers; [None] is a run that
    exhausted its fuel. *)
Definition M (A : Type) : Type := Parser -> option (A * Parser).

Definition ret {A} (a : A) : M A := fun p => Some (a, p).

Definition bind {A B} (m : M A) (k : A -> M B) : M B :=
  fun p => match m p with
           | Some (a, p') => k a p'
           | None => None
           end.

Definition gets {A} (f : Parser -> A) : M A := fun p => Some (f p, p).
Definition modify (f : Parser -> Parser) : M unit := fun p => Some (tt, f p).
Definition outOfFuel {A} : M A := fun _ => None.

#[local] Notation "x <- m ;; k" := (bind m (fun x => k))
  (at level 61, m at next level, right associativity).
#[local] Notation "m ;; k" := (bind m (fun _ => k))
  (at level 61, right associativity).

(** Operators' precedence classes. *)
Definition LOWEST : Z := 0.
Definition ASSIGNMENT : Z := 1.
Definition EQUALS : Z := 2.
Definition LESSGREATER : Z := 3.
Definition SUM : Z := 4.
Definition PRODUCT : Z := 5.
Definition PREFIX : Z := 6.
Definition CALL : Z := 7.
Definition INDEX : Z := 8.

(** A Go map keyed by token kind: the entries, the latest first. *)
Definition Map (V : Type) : Type := list (item.Type_ * V).

Fixpoint lookup {V} (m : Map V) (k : item.Type_) : option V :=
  match m with
  | [] => None
  | (k', v) :: rest => if item.Type_eqb k' k then Some v else lookup rest k
  end.

(** [m[typ] = fn] *)
Definition register {V} (m : Map V) (entry : item.Type_ * V) : Map V :=
  entry :: m.

(** Links each operator to its precedence class. *)
Definition precedences : Map Z :=
  fold_left register
    [ (item.EQ, EQUALS);
      (item.NOT_EQ, EQUALS);
      (item.LT, LESSGREATER);
      (item.GT, LESSGREATER);
      (item.LT_EQ, LESSGREATER);
      (item.GT_EQ, LESSGREATER);
      (item.PLUS, SUM);
      (item.MINUS, SUM);
      (item.OR, SUM);
      (item.SLASH, PRODUCT);
      (item.ASTERISK, PRODUCT);
      (item.POWER, PRODUCT);
      (item.AND, PRODUCT);
      (item.LPAREN, CALL);
      (item.LBRACKET, INDEX);
      (item.ASSIGN, ASSIGNMENT);
      (item.PLUS_ASSIGN, ASSIGNMENT);
      (item.MINUS_ASSIGN, ASSIGNMENT);
      (item.SLASH_ASSIGN, ASSIGNMENT);
      (item.ASTERISK_ASSIGN, ASSIGNMENT) ] [].

(** Modelled from the spec: the token channel filled by [lexer.Lex] (not
    among the sources) is a finite sequence of tokens closed by the [EOF]
    sentinel.  A receive takes the first pending token; on the drained
    channel it yields the [EOF] item again. *)
Definition EOFItem : item.Item := item.mkItem item.EOF "".

Definition recv (ch : list item.Item) : item.Item * list item.Item :=
  match ch with
  | [] => (EOFItem, [])
  | i :: rest => (i, rest)
  end.

Definition next_state (p : Parser) : Parser :=
  mkParser (peek p) (fst (recv (items p))) (snd (recv (items p))) (errs p).

Definition next : M unit := modify next_state.

(** [p.errs = append(p.errs, msg)] *)
Definition addErr_state (msg : string) (p : Parser) : Parser :=
  mkParser (cur p) (peek p) (items p) (errs p ++ [msg]).

Definition appendErr (msg : string) : M unit := modify (addErr_state msg).

Definition errors (p : Parser) : list string := errs p.

(** Returns the precedence value of the type of the peek item. *)
Definition peekPrecedence : M Z :=
  gets (fun p => match lookup precedences (item.Typ (peek p)) with
                 | Some prec => prec
                 | None => LOWEST
                 end).

(** Returns the precedence value of the type of the current item. *)
Definition precedence : M Z :=
  gets (fun p => match lookup precedences (item.Typ (cur p)) with
                 | Some prec => prec
                 | None => LOWEST
                 end).

Section Parser.

(** [fmt]'s [%v] and [%s] of a token kind and [%q] of a string, and
    [strconv.ParseInt(s, 0, 64)] and [strconv.ParseFloat(s, 64)], [None]
    when they return an error. *)
Variable fmtType : item.Type_ -> string.
Variable fmtTypeS : item.Type_ -> string.
Variable Quote : string -> string.
Variable ParseInt : string -> option Z.
Variable ParseFloat : string -> option float.

(** Emits an error if the peek item is not of type t. *)
Definition peekError (t : item.Type_) : M unit :=
  pk <- gets peek ;;
  appendErr ("expected next item to be " ++ fmtType t ++ ", got "
             ++ fmtType (item.Typ pk) ++ " instead").

(** Returns true if the peek is of the provided type 't', otherwise
    returns false and appends an error to p.errs. *)
Definition expectPeek (t : item.Type_) : M bool :=
  pk <- gets peek ;;
  if item.Is pk t then next ;; ret true
  else peekError t ;; ret false.

Definition noParsePrefixFnError (t : item.Type_) : M unit :=
  appendErr ("no parse prefix function for '" ++ fmtTypeS t ++ "' found").

(** Returns an identifier node. *)
Definition parseIdentifier : M ast.Node :=
  c <- gets cur ;; ret (ast.Identifier (item.Val c)).

(** Returns an integer node. *)
Definition parseInteger : M ast.Node :=
  c <- gets cur ;;
  match ParseInt (item.Val c) with
  | None =>
      appendErr ("unable to parse " ++ Quote (item.Val c) ++ " as integer") ;;
      ret ast.Nil
  | Some i => ret (ast.Integer i)
  end.

(** Returns a float node. *)
Definition parseFloat : M ast.Node :=
  c <- gets cur ;;
  match ParseFloat (item.Val c) with
  | None =>
      appendErr ("unable to parse " ++ Quote (item.Val c) ++ " as float") ;;
      ret ast.Nil
  | Some f => ret (ast.Float f)
  end.

Definition parseString : M ast.Node :=
  c <- gets cur ;; ret (ast.String (item.Val c)).

(** Returns a boolean node. *)
Definition parseBoolean : M ast.Node :=
  c <- gets cur ;; ret (ast.Boolean (item.Is c item.TRUE)).

(** [parseFunctionParams]'s loop over [, name]. *)
Fixpoint parseFunctionParams_loop (n : nat) (ret_ : list string) : M (list string) :=
  match n with
  | O => outOfFuel
  | S n' =>
      pk <- gets peek ;;
      if item.Is pk item.COMMA then
        next ;; next ;;
        c <- gets cur ;;
        parseFunctionParams_loop n' (ret_ ++ [item.Val c])
      else ret ret_
  end.

Section WithParseExpr.

(** The recursive calls of [parseExpr], and the fuel of the loops. *)
Variable parseExpr : Z -> M ast.Node.
Variable fuel : nat.

Definition parseReturn : M ast.Node :=
  next ;;
  e <- parseExpr LOWEST ;;
  pk <- gets peek ;;
  (if item.Is pk item.SEMICOLON then next else ret tt) ;;
  ret (ast.Return e).

Definition parseStatement : M ast.Node :=
  c <- gets cur ;;
  if item.Is c item.RETURN then parseReturn
  else parseExpr LOWEST.

(** Returns the node representing an expression enclosed in parentheses. *)
Definition parseGroupedExpr : M ast.Node :=
  next ;;
  exp <- parseExpr LOWEST ;;
  ok <- expectPeek item.RPAREN ;;
  if negb ok then ret ast.Nil
  else ret exp.

(** [block.Add(s)] under [if s != nil]. *)
Definition addStatement (block : list ast.Node) (s : ast.Node) : list ast.Node :=
  if ast.isNil s then block else block ++ [s].

Fixpoint parseBlock_loop (n : nat) (block : list ast.Node) : M (list ast.Node) :=
  match n with
  | O => outOfFuel
  | S n' =>
      c <- gets cur ;;
      if negb (item.Is c item.RBRACE) && negb (item.Is c item.EOF) then
        s <- parseStatement ;;
        next ;;
        parseBlock_loop n' (addStatement block s)
      else ret block
  end.

Definition parseBlock : M ast.Node :=
  next ;;
  block <- parseBlock_loop fuel [] ;;
  ret (ast.Block block).

(** [parseIfExpr]; the argument bounds the chain of [else if]. *)
Fixpoint parseIfExpr_rec (n : nat) : M ast.Node :=
  match n with
  | O => outOfFuel
  | S n' =>
      next ;;
      cond <- parseExpr LOWEST ;;
      ok <- expectPeek item.LBRACE ;;
      if negb ok then ret ast.Nil
      else
        body <- parseBlock ;;
        pk <- gets peek ;;
        if item.Is pk item.ELSE then
          next ;;
          pk' <- gets peek ;;
          if item.Is pk' item.IF then
            next ;;
            alt <- parseIfExpr_rec n' ;;
            ret (ast.IfExpr cond body alt)
          else
            ok' <- expectPeek item.LBRACE ;;
            if negb ok' then ret ast.Nil
            else
              alt <- parseBlock ;;
              ret (ast.IfExpr cond body alt)
        else ret (ast.IfExpr cond body ast.Nil)
  end.

Definition parseIfExpr : M ast.Node := parseIfExpr_rec fuel.

Fixpoint parseNodeList_loop (n : nat) (nodes : list ast.Node) : M (list ast.Node) :=
  match n with
  | O => outOfFuel
  | S n' =>
      pk <- gets peek ;;
      if item.Is pk item.COMMA then
        next ;; next ;;
        e <- parseExpr LOWEST ;;
        parseNodeList_loop n' (nodes ++ [e])
      else ret nodes
  end.

Definition parseNodeList (end_ : item.Type_) : M (list ast.Node) :=
  pk <- gets peek ;;
  if item.Is pk end_ then next ;; ret []
  else
    next ;;
    e <- parseExpr LOWEST ;;
    nodes <- parseNodeList_loop fuel [e] ;;
    ok <- expectPeek end_ ;;
    if negb ok then ret []
    else ret nodes.

Definition parseList : M ast.Node :=
  nodes <- parseNodeList item.RBRACKET ;;
  ret (ast.List nodes).

Definition parseFunctionParams : M (list string) :=
  pk <- gets peek ;;
  if item.Is pk item.RPAREN then next ;; ret []
  else
    next ;;
    c <- gets cur ;;
    ret_ <- parseFunctionParams_loop fuel [item.Val c] ;;
    ok <- expectPeek item.RPAREN ;;
    if negb ok then ret []
    else ret ret_.

Definition parseFunction : M ast.Node :=
  ok <- expectPeek item.LPAREN ;;
  if negb ok then ret ast.Nil
  else
    params <- parseFunctionParams ;;
    ok' <- expectPeek item.LBRACE ;;
    if negb ok' then ret ast.Nil
    else
      body <- parseBlock ;;
      ret (ast.Function params body).

(** Returns a node of type PrefixMinus. *)
Definition parsePrefixMinus : M ast.Node :=
  next ;;
  e <- parseExpr PREFIX ;;
  ret (ast.PrefixMinus e).

(** Returns a node of type Bang. *)
Definition parseBang : M ast.Node :=
  next ;;
  e <- parseExpr PREFIX ;;
  ret (ast.Bang e).

(** The shape shared by the seventeen binary infix functions, from
    [parsePlus] to [parseAsteriskAssign]: read the precedence of the
    current item (the operator), advance, parse the right operand with
    that precedence. *)
Definition parseBinary (New : ast.Node -> ast.Node -> ast.Node)
    (left : ast.Node) : M ast.Node :=
  prec <- precedence ;;
  next ;;
  right <- parseExpr prec ;;
  ret (New left right).

Definition parsePlus := parseBinary ast.Plus.
Definition parseMinus := parseBinary ast.Minus.
Definition parseAsterisk := parseBinary ast.NewTimes.
Definition parseSlash := parseBinary ast.Divide.
Definition parseEquals := parseBinary ast.Equals.
Definition parseNotEquals := parseBinary ast.NotEquals.
Definition parseLess := parseBinary ast.NewLess.
Definition parseGreater := parseBinary ast.Greater.
Definition parseLessEq := parseBinary ast.LessEq.
Definition parseGreaterEq := parseBinary ast.GreaterEq.
Definition parseAnd := parseBinary ast.And.
Definition parseOr := parseBinary ast.Or.
Definition parseAssign := parseBinary ast.Assign.
Definition parsePlusAssign := parseBinary ast.PlusAssign.
Definition parseMinusAssign := parseBinary ast.MinusAssign.
Definition parseSlashAssign := parseBinary ast.DivideAssign.
Definition parseAsteriskAssign := parseBinary ast.TimesAssign.

Definition parseCall (fn : ast.Node) : M ast.Node :=
  args <- parseNodeList item.RPAREN ;;
  ret (ast.Call fn args).

Definition parseIndex (lst : ast.Node) : M ast.Node :=
  next ;;
  expr <- parseExpr LOWEST ;;
  ok <- expectPeek item.RBRACKET ;;
  if negb ok then ret ast.Nil
  else ret (ast.Index lst expr).

(** The prefix table, as [newParser] registers it. *)
Definition prefixParsers : Map (M ast.Node) :=
  fold_left register
    [ (item.IDENT, parseIdentifier);
      (item.INT, parseInteger);
      (item.FLOAT, parseFloat);
      (item.STRING, parseString);
      (item.MINUS, parsePrefixMinus);
      (item.BANG, parseBang);
      (item.TRUE, parseBoolean);
      (item.FALSE, parseBoolean);
      (item.LPAREN, parseGroupedExpr);
      (item.IF, parseIfExpr);
      (item.FUNCTION, parseFunction);
      (item.LBRACKET, parseList) ] [].

(** The infix table, as [newParser] registers it; the registration of
    [item.POWER] is commented out in the source. *)
Definition infixParsers : Map (ast.Node -> M ast.Node) :=
  fold_left register
    [ (item.EQ, parseEquals);
      (item.NOT_EQ, parseNotEquals);
      (item.LT, parseLess);
      (item.GT, parseGreater);
      (item.LT_EQ, parseLessEq);
      (item.GT_EQ, parseGreaterEq);
      (item.AND, parseAnd);
      (item.OR, parseOr);
      (item.PLUS, parsePlus);
      (item.MINUS, parseMinus);
      (item.SLASH, parseSlash);
      (item.ASTERISK, parseAsterisk);
      (item.ASSIGN, parseAssign);
      (item.PLUS_ASSIGN, parsePlusAssign);
      (item.MINUS_ASSIGN, parseMinusAssign);
      (item.SLASH_ASSIGN, parseSlashAssign);
      (item.ASTERISK_ASSIGN, parseAsteriskAssign);
      (item.LPAREN, parseCall);
      (item.LBRACKET, parseIndex) ] [].

(** The [for] loop of [parseExpr]. *)
Fixpoint parseExpr_loop (n : nat) (precedence : Z) (leftExp : ast.Node) : M ast.Node :=
  match n with
  | O => outOfFuel
  | S n' =>
      pk <- gets peek ;;
      pp <- peekPrecedence ;;
      if negb (item.Is pk item.SEMICOLON) && (precedence <? pp) then
        match lookup infixParsers (item.Typ pk) with
        | Some infixFn =>
            next ;;
            leftExp' <- infixFn leftExp ;;
            parseExpr_loop n' precedence leftExp'
        | None => ret leftExp
        end
      else ret leftExp
  end.

(** The body of [parseExpr]. *)
Definition parseExpr_body (precedence : Z) : M ast.Node :=
  c <- gets cur ;;
  match lookup prefixParsers (item.Typ c) with
  | Some prefixFn =>
      leftExp <- prefixFn ;;
      leftExp' <- parseExpr_loop fuel precedence leftExp ;;
      pk <- gets peek ;;
      (if item.Is pk item.SEMICOLON then next else ret tt) ;;
      ret leftExp'
  | None =>
      noParsePrefixFnError (item.Typ c) ;;
      ret ast.Nil
  end.

End WithParseExpr.

(** [p.parseExpr(precedence)]: [fuel] bounds the depth of the recursion
    and the length of every loop. *)
Fixpoint parseExpr (fuel : nat) (precedence : Z) : M ast.Node :=
  match fuel with
  | O => outOfFuel
  | S fuel' => parseExpr_body (parseExpr fuel') fuel precedence
  end.

Fixpoint parse_loop (fuel n : nat) (block : list ast.Node) : M (list ast.Node) :=
  match n with
  | O => outOfFuel
  | S n' =>
      c <- gets cur ;;
      if negb (item.Is c item.EOF) then
        s <- parseStatement (parseExpr fuel) ;;
        next ;;
        parse_loop fuel n' (addStatement block s)
      else ret block
  end.

Definition parse (fuel : nat) : M ast.Node :=
  block <- parse_loop fuel fuel [] ;;
  ret (ast.Block block).

(** [newParser(items)]: the first two tokens fill [cur] and [peek]. *)
Definition newParser (ch : list item.Item) : Parser :=
  mkParser (fst (recv ch)) (fst (recv (snd (recv ch))))
           (snd (recv (snd (recv ch)))) [].

(** [Parse], from the tokens [lexer.Lex(input)] sends on. *)
Definition Parse (fuel : nat) (input : list item.Item)
  : option (ast.Node * list string) :=
  match parse fuel (newParser input) with
  | Some (prog, p) => Some (prog, errors p)
  | None => None
  end.

(* ------------------------------------------------------------------ *)
(** ** Measures and predicates on parser states and trees *)

(** [populated n]: [n] is not nil and neither is any child slot below it,
    the optional else-branch of an [IfExpr] apart. *)
Fixpoint populated (n : ast.Node) : bool :=
  match n with
  | ast.Nil => false
  | ast.Identifier _ | ast.Integer _ | ast.Float _ | ast.String _
  | ast.Boolean _ => true
  | ast.PrefixMinus e | ast.Bang e | ast.Return e => populated e
  | ast.Plus l r | ast.Minus l r | ast.Times l r | ast.Divide l r
  | ast.Equals l r | ast.NotEquals l r | ast.Less l r | ast.Greater l r
  | ast.LessEq l r | ast.GreaterEq l r | ast.And l r | ast.Or l r
  | ast.Assign l r | ast.PlusAssign l r | ast.MinusAssign l r
  | ast.DivideAssign l r | ast.TimesAssign l r | ast.Index l r =>
      populated l && populated r
  | ast.IfExpr cond body alt =>
      populated cond && populated body
      && match alt with ast.Nil => true | _ => populated alt end
  | ast.Function _ body => populated body
  | ast.Call fn args => populated fn && forallb populated args
  | ast.List nodes => forallb populated nodes
  | ast.Block stmts => forallb populated stmts
  end.

(** [fully_populated n]: no child slot at all is nil. *)
Fixpoint fully_populated (n : ast.Node) : bool :=
  match n with
  | ast.Nil => false
  | ast.Identifier _ | ast.Integer _ | ast.Float _ | ast.String _
  | ast.Boolean _ => true
  | ast.PrefixMinus e | ast.Bang e | ast.Return e => fully_populated e
  | ast.Plus l r | ast.Minus l r | ast.Times l r | ast.Divide l r
  | ast.Equals l r | ast.NotEquals l r | ast.Less l r | ast.Greater l r
  | ast.LessEq l r | ast.GreaterEq l r | ast.And l r | ast.Or l r
  | ast.Assign l r | ast.PlusAssign l r | ast.MinusAssign l r
  | ast.DivideAssign l r | ast.TimesAssign l r | ast.Index l r =>
      fully_populated l && fully_populated r
  | ast.IfExpr cond body alt =>
      fully_populated cond && fully_populated body && fully_populated alt
  | ast.Function _ body => fully_populated body
  | ast.Call fn args => fully_populated fn && forallb fully_populated args
  | ast.List nodes => forallb fully_populated nodes
  | ast.Block stmts => forallb fully_populated stmts
  end.

Definition realToken (i : item.Item) : nat :=
  if item.Is i item.EOF then 0%nat else 1%nat.

(** What is left to read: it weighs the pending tokens, and the two
    tokens of the window when they are not [EOF]. *)
Definition w (p : Parser) : nat :=
  (3 * List.length (items p) + 2 * realToken (peek p) + realToken (cur p))%nat.

Definition nerr (p : Parser) : nat := List.length (errs p).

(** [m] returns from [p], and [Q] holds of its result and final state. *)
Definition returns {A} (m : M A) (p : Parser) (Q : A -> Parser -> Prop) : Prop :=
  exists a p', m p = Some (a, p') /\ Q a p'.

(** The parser consumed tokens and appended errors, if anything; and if it
    appended no error the result satisfies [R]. *)
Definition post {A} (R : A -> Prop) (p : Parser) (a : A) (p' : Parser) : Prop :=
  (w p' <= w p)%nat /\ (nerr p <= nerr p')%nat /\ (nerr p' = nerr p -> R a).

Definition wf (n : ast.Node) : Prop := populated n = true.

(** [m2] returns whatever [m1] returns. *)
Definition refines {A} (m1 m2 : M A) : Prop :=
  forall p r, m1 p = Some r -> m2 p = Some r.

(** [statements fuel p l p']: from [p], the main loop parses the
    statements [l] one after the other, each followed by [next], and stops
    in [p'], the first state whose current token is [EOF]; nil results
    are left out. *)
Inductive statements (fuel : nat) : Parser -> list ast.Node -> Parser -> Prop :=
| statements_EOF p :
    item.Is (cur p) item.EOF = true -> statements fuel p [] p
| statements_step p s p1 rest p' :
    item.Is (cur p) item.EOF = false ->
    parseStatement (parseExpr fuel) p = Some (s, p1) ->
    statements fuel (next_state p1) rest p' ->
    statements fuel p (addStatement [] s ++ rest) p'.

(** The precedence the table gives a token kind, [LOWEST] by default. *)
Definition precedenceOf (t : item.Type_) : Z :=
  match lookup precedences t with
  | Some prec => prec
  | None => LOWEST
  end.

(** The node each binary operator builds: the constructor its infix
    function ([parsePlus], ..., [parseAsteriskAssign]) applies. *)
Definition binaryNode (t : item.Type_)
  : option (ast.Node -> ast.Node -> ast.Node) :=
  match t with
  | item.EQ => Some ast.Equals
  | item.NOT_EQ => Some ast.NotEquals
  | item.LT => Some ast.NewLess
  | item.GT => Some ast.Greater
  | item.LT_EQ => Some ast.LessEq
  | item.GT_EQ => Some ast.GreaterEq
  | item.AND => Some ast.And
  | item.OR => Some ast.Or
  | item.PLUS => Some ast.Plus
  | item.MINUS => Some ast.Minus
  | item.SLASH => Some ast.Divide
  | item.ASTERISK => Some ast.NewTimes
  | item.ASSIGN => Some ast.Assign
  | item.PLUS_ASSIGN => Some ast.PlusAssign
  | item.MINUS_ASSIGN => Some ast.MinusAssign
  | item.SLASH_ASSIGN => Some ast.DivideAssign
  | item.ASTERISK_ASSIGN => Some ast.TimesAssign
  | _ => None
  end.

Definition ident (name : string) : item.Item := item.mkItem item.IDENT name.

(* ------------------------------------------------------------------ *)
(** ** Basic facts *)

Lemma realToken_EOFItem : realToken EOFItem = 0%nat.
Proof. reflexivity. Qed.

Lemma realToken_le i : (realToken i <= 1)%nat.
Proof. unfold realToken. destruct (item.Is i item.EOF); lia. Qed.

Lemma w_next p : (w (next_state p) <= Nat.pred (w p))%nat.
Proof.
  unfold w, next_state. cbn [cur peek items].
  pose proof (realToken_le (cur p)). pose proof (realToken_le (peek p)).
  destruct (items p) as [| i rest]; cbn [recv fst snd List.length].
  - rewrite realToken_EOFItem. lia.
  - pose proof (realToken_le i). lia.
Qed.

Lemma nerr_next p : nerr (next_state p) = nerr p.
Proof. reflexivity. Qed.

Lemma cur_next p : cur (next_state p) = peek p.
Proof. reflexivity. Qed.

Lemma w_addErr msg p : w (addErr_state msg p) = w p.
Proof. reflexivity. Qed.

Lemma nerr_addErr msg p : nerr (addErr_state msg p) = S (nerr p).
Proof. unfold nerr, addErr_state. cbn [errs]. rewrite length_app. cbn. lia. Qed.

Lemma w_cur_typ p : item.Typ (cur p) <> item.EOF -> (1 <= w p)%nat.
Proof.
  intros H. unfold w, realToken.
  destruct (item.Is (cur p) item.EOF) eqn:E; [| lia].
  apply item.Is_true_iff in E. contradiction.
Qed.

Lemma w_cur_pos p : item.Is (cur p) item.EOF = false -> (1 <= w p)%nat.
Proof. intros H. apply w_cur_typ. now apply item.Is_false_iff. Qed.

Lemma w_peek_typ p : item.Typ (peek p) <> item.EOF -> (2 <= w p)%nat.
Proof.
  intros H. unfold w, realToken.
  destruct (item.Is (peek p) item.EOF) eqn:E; [| lia].
  apply item.Is_true_iff in E. contradiction.
Qed.

Lemma w_peek_pos p t :
  item.Is (peek p) t = true -> t <> item.EOF -> (2 <= w p)%nat.
Proof.
  intros H Ht. apply w_peek_typ. apply item.Is_true_iff in H. congruence.
Qed.

Lemma wf_Forall l : forallb populated l = true <-> Forall wf l.
Proof.
  rewrite forallb_forall, Forall_forall. reflexivity.
Qed.

Lemma wf_addStatement block s :
  Forall wf block -> (ast.isNil s = false -> wf s) ->
  Forall wf (addStatement block s).
Proof.
  intros Hb Hs. unfold addStatement. destruct (ast.isNil s); [assumption |].
  apply Forall_app. split; [assumption |]. constructor; auto.
Qed.

(* ------------------------------------------------------------------ *)
(** ** Symbolic execution of parser methods *)

Ltac exec :=
  cbn [bind gets modify ret next appendErr peekError
       noParsePrefixFnError precedence peekPrecedence negb andb].

Lemma bind_returns {A B} (m : M A) (k : A -> M B) p
    (Q1 : A -> Parser -> Prop) (Q : B -> Parser -> Prop) :
  returns m p Q1 ->
  (forall a p', Q1 a p' -> exists b p'', k a p' = Some (b, p'') /\ Q b p'') ->
  exists b p'', bind m k p = Some (b, p'') /\ Q b p''.
Proof.
  intros (a & p' & E & H1) Hk. unfold bind. rewrite E. now apply Hk.
Qed.

Ltac call H :=
  let r := fresh "r" in
  let q := fresh "q" in
  let HQ := fresh "HQ" in
  eapply (bind_returns _ _ _ _ _ H); intros r q HQ; exec.

Ltac done_ := eexists _, _; split; [reflexivity |].

Ltac pose_next p :=
  lazymatch goal with
  | _ : (w (next_state p) <= Nat.pred (w p))%nat |- _ => fail
  | _ => pose proof (w_next p); pose proof (nerr_next p)
  end.

Ltac pose_addErr m p :=
  lazymatch goal with
  | _ : nerr (addErr_state m p) = S (nerr p) |- _ => fail
  | _ => pose proof (w_addErr m p); pose proof (nerr_addErr m p)
  end.

Ltac w_facts :=
  repeat match goal with
         | |- context [next_state ?p] => pose_next p
         | _ : context [next_state ?p] |- _ => pose_next p
         | |- context [addErr_state ?m ?p] => pose_addErr m p
         | _ : context [addErr_state ?m ?p] |- _ => pose_addErr m p
         end.

Ltac w_lia := w_facts; unfold post in *; lia.

Ltac split_post :=
  repeat match goal with
         | H : post _ _ _ _ |- _ =>
             let Hw := fresh "Hw" in
             let He := fresh "He" in
             let HR := fresh "HR" in
             destruct H as (Hw & He & HR)
         end.

(** A post-condition is proved in three parts: tokens, errors, result. *)
Ltac prove_post :=
  split_post; w_facts; unfold post;
  split; [lia | split; [lia | intros ?Hclean]].

Lemma expectPeek_spec t p :
  returns (expectPeek t) p
    (fun ok p' =>
       (ok = true /\ item.Is (peek p) t = true /\ p' = next_state p)
       \/ (ok = false /\ item.Is (peek p) t = false
           /\ exists msg, p' = addErr_state msg p)).
Proof.
  unfold returns, expectPeek. exec.
  destruct (item.Is (peek p) t); exec; done_; eauto 6.
Qed.

Ltac expect t q :=
  let E := fresh "E" in
  let msg := fresh "msg" in
  let ok := fresh "ok" in
  let q' := fresh "q" in
  let H := fresh "H" in
  eapply (bind_returns _ _ _ _ _ (expectPeek_spec t q));
  intros ok q' H;
  destruct H as [(-> & E & ->) | (-> & E & msg & ->)]; exec.

(** Evaluates a lookup of a concrete token kind in one of the tables. *)
Ltac table_in H :=
  cbv [lookup prefixParsers infixParsers precedences fold_left register] in H;
  repeat match type of H with
         | context [item.Type_eqb ?a ?b] =>
             let v := eval vm_compute in (item.Type_eqb a b) in
             change (item.Type_eqb a b) with v in H
         end;
  cbv iota in H.

Ltac table :=
  cbv [lookup prefixParsers infixParsers precedences fold_left register];
  repeat match goal with
         | |- context [item.Type_eqb ?a ?b] =>
             let v := eval vm_compute in (item.Type_eqb a b) in
             change (item.Type_eqb a b) with v
         end;
  cbv iota.

(** Uses the result clause of a call that appended no error. *)
Ltac clean :=
  match goal with
  | H : nerr _ = nerr _ -> _ |- _ => apply H; [lia | ..]
  end.

Section Specs.

(** What is assumed of the recursive calls: [parseExpr] returns from every
    state of weight below [f]; the loops may take more than [f] steps. *)
Variable rec : Z -> M ast.Node.
Variable f fuel : nat.
Hypothesis Hrec :
  forall prec p, (w p < f)%nat -> returns (rec prec) p (post wf p).
Hypothesis Hfuel : (f < fuel)%nat.

Lemma parseReturn_spec p :
  (w p <= f)%nat -> (0 < w p)%nat ->
  returns (parseReturn rec) p (post wf p).
Proof.
  clear Hfuel. intros Hf Hp. unfold returns, parseReturn. exec.
  assert (Hq : (w (next_state p) < f)%nat) by w_lia.
  call (Hrec LOWEST _ Hq).
  destruct (item.Is (peek q) item.SEMICOLON); exec; done_; prove_post;
    unfold wf; cbn [populated]; clean.
Qed.

Lemma parseStatement_spec p :
  (w p < f)%nat -> returns (parseStatement rec) p (post wf p).
Proof.
  clear Hfuel. intros Hf. unfold returns, parseStatement. exec.
  destruct (item.Is (cur p) item.RETURN) eqn:E.
  - apply parseReturn_spec; [lia |].
    apply w_cur_typ. apply item.Is_true_iff in E. rewrite E. discriminate.
  - now apply Hrec.
Qed.

Lemma parseGroupedExpr_spec p :
  (w p <= f)%nat -> (0 < w p)%nat ->
  returns (parseGroupedExpr rec) p (post wf p).
Proof.
  intros Hf Hp. unfold returns, parseGroupedExpr. exec.
  assert (Hq : (w (next_state p) < f)%nat) by w_lia.
  call (Hrec LOWEST _ Hq).
  expect item.RPAREN q; done_; prove_post.
  - clean.
  - lia.
Qed.

Lemma parseBlock_loop_spec n : forall p block,
  (w p < f)%nat -> (w p < n)%nat ->
  returns (parseBlock_loop rec n block) p
    (post (fun r => Forall wf block -> Forall wf r) p).
Proof.
  induction n as [| n IH]; intros p block Hf Hn; [lia |].
  unfold returns. cbn [parseBlock_loop]. exec.
  destruct (item.Is (cur p) item.RBRACE) eqn:E1; exec;
    [done_; prove_post; auto |].
  destruct (item.Is (cur p) item.EOF) eqn:E2; exec;
    [done_; prove_post; auto |].
  pose proof (w_cur_pos _ E2) as Hpos.
  call (parseStatement_spec p Hf).
  assert (H1 : (w (next_state q) < f)%nat) by w_lia.
  assert (H2 : (w (next_state q) < n)%nat) by w_lia.
  destruct (IH (next_state q) (addStatement block r) H1 H2)
    as (b & p' & E & HQ').
  exists b, p'. split; [exact E |]. prove_post.
  intros Hb. clean.
  apply wf_addStatement; [assumption |]. intros _. clean.
Qed.

Lemma parseBlock_spec p :
  (w p < f)%nat -> returns (parseBlock rec fuel) p (post wf p).
Proof.
  intros Hf. unfold returns, parseBlock. exec.
  assert (H1 : (w (next_state p) < f)%nat) by w_lia.
  assert (H2 : (w (next_state p) < fuel)%nat) by w_lia.
  call (parseBlock_loop_spec fuel _ [] H1 H2).
  done_. prove_post. unfold wf. cbn [populated]. apply wf_Forall.
  clean. constructor.
Qed.

Lemma wf_alt alt :
  wf alt -> match alt with ast.Nil => true | _ => populated alt end = true.
Proof. unfold wf. destruct alt; auto. Qed.

Lemma wf_IfExpr cond body alt :
  wf cond -> wf body -> (alt = ast.Nil \/ wf alt) ->
  wf (ast.IfExpr cond body alt).
Proof.
  unfold wf. intros Hc Hb Ha. cbn [populated]. rewrite Hc, Hb. cbn.
  destruct Ha as [-> | Ha]; [reflexivity | now apply wf_alt].
Qed.

Lemma parseIfExpr_rec_spec n : forall p,
  (w p <= f)%nat -> (0 < w p)%nat -> (w p <= n)%nat ->
  returns (parseIfExpr_rec rec fuel n) p (post wf p).
Proof.
  induction n as [| n IH]; intros p Hf Hp Hn; [lia |].
  unfold returns. cbn [parseIfExpr_rec]. exec.
  assert (Hq : (w (next_state p) < f)%nat) by w_lia.
  call (Hrec LOWEST _ Hq).
  expect item.LBRACE q; [| done_; prove_post; lia].
  assert (Hb : (w (next_state q) < f)%nat) by w_lia.
  call (parseBlock_spec _ Hb).
  destruct (item.Is (peek q0) item.ELSE) eqn:Eelse; exec.
  2:{ done_. prove_post. apply wf_IfExpr; [clean | clean | now left]. }
  destruct (item.Is (peek (next_state q0)) item.IF) eqn:Eif; exec.
  - assert (H1 : (w (next_state (next_state q0)) <= f)%nat) by w_lia.
    assert (H2 : (0 < w (next_state (next_state q0)))%nat).
    { apply w_cur_typ. rewrite cur_next.
      apply item.Is_true_iff in Eif. rewrite Eif. discriminate. }
    assert (H3 : (w (next_state (next_state q0)) <= n)%nat).
    { pose proof (w_peek_pos _ _ Eelse ltac:(discriminate)). w_lia. }
    call (IH _ H1 H2 H3).
    done_. prove_post.
    apply wf_IfExpr; [clean | clean | right; clean].
  - expect item.LBRACE (next_state q0); [| done_; prove_post; lia].
    assert (Hb' : (w (next_state (next_state q0)) < f)%nat) by w_lia.
    call (parseBlock_spec _ Hb').
    done_. prove_post.
    apply wf_IfExpr; [clean | clean | right; clean].
Qed.

Lemma parseNodeList_loop_spec n : forall p nodes,
  (w p <= f)%nat -> (w p < n)%nat ->
  returns (parseNodeList_loop rec n nodes) p
    (post (fun r => Forall wf nodes -> Forall wf r) p).
Proof.
  induction n as [| n IH]; intros p nodes Hf Hn; [lia |].
  unfold returns. cbn [parseNodeList_loop]. exec.
  destruct (item.Is (peek p) item.COMMA) eqn:E; exec;
    [| done_; prove_post; auto].
  pose proof (w_peek_pos _ _ E ltac:(discriminate)) as Hpos.
  assert (Hq : (w (next_state (next_state p)) < f)%nat) by w_lia.
  call (Hrec LOWEST _ Hq).
  assert (H1 : (w q <= f)%nat) by w_lia.
  assert (H2 : (w q < n)%nat) by w_lia.
  destruct (IH q (nodes ++ [r])%list H1 H2) as (b & p' & E' & HQ').
  exists b, p'. split; [exact E' |]. prove_post.
  intros Hb. clean. apply Forall_app. split; [assumption |].
  constructor; [clean | constructor].
Qed.

Lemma parseNodeList_spec end_ p :
  (w p <= f)%nat -> (0 < w p)%nat ->
  returns (parseNodeList rec fuel end_) p (post (Forall wf) p).
Proof.
  intros Hf Hp. unfold returns, parseNodeList. exec.
  destruct (item.Is (peek p) end_) eqn:E; exec; [done_; prove_post; constructor |].
  assert (Hq : (w (next_state p) < f)%nat) by w_lia.
  call (Hrec LOWEST _ Hq).
  assert (H1 : (w q <= f)%nat) by w_lia.
  assert (H2 : (w q < fuel)%nat) by w_lia.
  call (parseNodeList_loop_spec fuel q [r] H1 H2).
  expect end_ q0; done_; prove_post.
  - clean. constructor; [clean | constructor].
  - constructor.
Qed.

Lemma parseList_spec p :
  (w p <= f)%nat -> (0 < w p)%nat ->
  returns (parseList rec fuel) p (post wf p).
Proof.
  intros Hf Hp. unfold returns, parseList.
  call (parseNodeList_spec item.RBRACKET p Hf Hp).
  done_. prove_post. unfold wf. cbn [populated]. apply wf_Forall. clean.
Qed.

Lemma parseFunctionParams_loop_spec n : forall p ret_,
  (w p < n)%nat ->
  returns (parseFunctionParams_loop n ret_) p (post (fun _ => True) p).
Proof.
  induction n as [| n IH]; intros p ret_ Hn; [lia |].
  unfold returns. cbn [parseFunctionParams_loop]. exec.
  destruct (item.Is (peek p) item.COMMA) eqn:E; exec;
    [| done_; prove_post; auto].
  pose proof (w_peek_pos _ _ E ltac:(discriminate)) as Hpos.
  assert (H1 : (w (next_state (next_state p)) < n)%nat) by w_lia.
  destruct (IH _ (ret_ ++ [item.Val (cur (next_state (next_state p)))])%list H1)
    as (b & p' & E' & HQ').
  exists b, p'. split; [exact E' |]. prove_post. auto.
Qed.

Lemma parseFunctionParams_spec p :
  (w p < fuel)%nat ->
  returns (parseFunctionParams fuel) p (post (fun _ => True) p).
Proof.
  intros Hf. unfold returns, parseFunctionParams. exec.
  destruct (item.Is (peek p) item.RPAREN) eqn:E; exec; [done_; prove_post; auto |].
  assert (H1 : (w (next_state p) < fuel)%nat) by w_lia.
  call (parseFunctionParams_loop_spec fuel _ [item.Val (cur (next_state p))] H1).
  expect item.RPAREN q; done_; prove_post; auto.
Qed.

Lemma parseFunction_spec p :
  (w p <= f)%nat -> (0 < w p)%nat ->
  returns (parseFunction rec fuel) p (post wf p).
Proof.
  intros Hf Hp. unfold returns, parseFunction.
  expect item.LPAREN p; [| done_; prove_post; lia].
  assert (H1 : (w (next_state p) < fuel)%nat) by w_lia.
  call (parseFunctionParams_spec _ H1).
  expect item.LBRACE q; [| done_; prove_post; lia].
  assert (H2 : (w (next_state q) < f)%nat) by w_lia.
  call (parseBlock_spec _ H2).
  done_. prove_post. unfold wf. cbn [populated]. clean.
Qed.

Lemma parsePrefixMinus_spec p :
  (w p <= f)%nat -> (0 < w p)%nat ->
  returns (parsePrefixMinus rec) p (post wf p).
Proof.
  intros Hf Hp. unfold returns, parsePrefixMinus. exec.
  assert (Hq : (w (next_state p) < f)%nat) by w_lia.
  call (Hrec PREFIX _ Hq).
  done_. prove_post. unfold wf. cbn [populated]. clean.
Qed.

Lemma parseBang_spec p :
  (w p <= f)%nat -> (0 < w p)%nat ->
  returns (parseBang rec) p (post wf p).
Proof.
  intros Hf Hp. unfold returns, parseBang. exec.
  assert (Hq : (w (next_state p) < f)%nat) by w_lia.
  call (Hrec PREFIX _ Hq).
  done_. prove_post. unfold wf. cbn [populated]. clean.
Qed.

(** The constructors of the binary nodes. *)
Definition binaryNew (New : ast.Node -> ast.Node -> ast.Node) : Prop :=
  forall l r, populated (New l r) = populated l && populated r.

Lemma parseBinary_spec New left p :
  binaryNew New ->
  (w p <= f)%nat -> (0 < w p)%nat ->
  returns (parseBinary rec New left) p (post (fun r => wf left -> wf r) p).
Proof.
  intros HN Hf Hp. unfold returns, parseBinary. exec.
  assert (Hq : (w (next_state p) < f)%nat) by w_lia.
  match goal with |- context [rec ?prec] => call (Hrec prec _ Hq) end.
  done_. prove_post. unfold wf. rewrite HN. intros ->. cbn. clean.
Qed.

Lemma parseCall_spec fn p :
  (w p <= f)%nat -> (0 < w p)%nat ->
  returns (parseCall rec fuel fn) p (post (fun r => wf fn -> wf r) p).
Proof.
  intros Hf Hp. unfold returns, parseCall.
  call (parseNodeList_spec item.RPAREN p Hf Hp).
  done_. prove_post. unfold wf. cbn [populated]. intros ->. cbn.
  apply wf_Forall. clean.
Qed.

Lemma parseIndex_spec lst p :
  (w p <= f)%nat -> (0 < w p)%nat ->
  returns (parseIndex rec lst) p (post (fun r => wf lst -> wf r) p).
Proof.
  intros Hf Hp. unfold returns, parseIndex. exec.
  assert (Hq : (w (next_state p) < f)%nat) by w_lia.
  call (Hrec LOWEST _ Hq).
  expect item.RBRACKET q; done_; prove_post.
  - unfold wf. cbn [populated]. intros ->. cbn. clean.
  - lia.
Qed.

Lemma parseIdentifier_spec p : returns parseIdentifier p (post wf p).
Proof. unfold returns, parseIdentifier. exec. done_. prove_post. reflexivity. Qed.

Lemma parseString_spec p : returns parseString p (post wf p).
Proof. unfold returns, parseString. exec. done_. prove_post. reflexivity. Qed.

Lemma parseBoolean_spec p : returns parseBoolean p (post wf p).
Proof. unfold returns, parseBoolean. exec. done_. prove_post. reflexivity. Qed.

Lemma parseInteger_spec p : returns parseInteger p (post wf p).
Proof.
  unfold returns, parseInteger. exec.
  destruct (ParseInt (item.Val (cur p))); exec; done_; prove_post;
    [reflexivity | lia].
Qed.

Lemma parseFloat_spec p : returns parseFloat p (post wf p).
Proof.
  unfold returns, parseFloat. exec.
  destruct (ParseFloat (item.Val (cur p))); exec; done_; prove_post;
    [reflexivity | lia].
Qed.

Lemma prefixParsers_spec t g :
  lookup (prefixParsers rec fuel) t = Some g ->
  t <> item.EOF /\
  forall p, item.Typ (cur p) = t -> (w p <= f)%nat -> returns g p (post wf p).
Proof.
  intros H.
  destruct t; table_in H; try discriminate; injection H as <-;
    (split; [discriminate |]); intros p Ht Hf;
    assert (Hp : (0 < w p)%nat)
      by (apply w_cur_typ; rewrite Ht; discriminate).
  - apply parseIdentifier_spec.
  - apply parseInteger_spec.
  - apply parseFloat_spec.
  - apply parseString_spec.
  - now apply parsePrefixMinus_spec.
  - now apply parseBang_spec.
  - now apply parseGroupedExpr_spec.
  - now apply parseList_spec.
  - now apply parseFunction_spec.
  - apply parseIfExpr_rec_spec; [assumption | assumption | lia].
  - apply parseBoolean_spec.
  - apply parseBoolean_spec.
Qed.

Lemma infixParsers_spec t g :
  lookup (infixParsers rec fuel) t = Some g ->
  t <> item.EOF /\
  forall left p, item.Typ (cur p) = t -> (w p <= f)%nat ->
    returns (g left) p (post (fun r => wf left -> wf r) p).
Proof.
  intros H.
  destruct t; table_in H; try discriminate; injection H as <-;
    (split; [discriminate |]); intros left p Ht Hf;
    assert (Hp : (0 < w p)%nat)
      by (apply w_cur_typ; rewrite Ht; discriminate);
    try (apply parseBinary_spec; [intros l r; reflexivity | assumption | assumption]).
  - now apply parseCall_spec.
  - now apply parseIndex_spec.
Qed.

Lemma parseExpr_loop_spec prec n : forall p leftExp,
  (w p <= f)%nat -> (w p < n)%nat ->
  returns (parseExpr_loop rec fuel n prec leftExp) p
    (post (fun r => wf leftExp -> wf r) p).
Proof.
  induction n as [| n IH]; intros p leftExp Hf Hn; [lia |].
  unfold returns. cbn [parseExpr_loop]. exec.
  destruct (negb (item.Is (peek p) item.SEMICOLON)
            && (prec <? match lookup precedences (item.Typ (peek p)) with
                        | Some prec0 => prec0
                        | None => LOWEST
                        end)); [| done_; prove_post; auto].
  destruct (lookup (infixParsers rec fuel) (item.Typ (peek p))) as [infixFn |] eqn:E;
    exec; [| done_; prove_post; auto].
  destruct (infixParsers_spec _ _ E) as [Hne Hfn].
  pose proof (w_peek_typ _ Hne) as Hpos.
  assert (H1 : (w (next_state p) <= f)%nat) by w_lia.
  call (Hfn leftExp (next_state p) eq_refl H1).
  assert (H2 : (w q <= f)%nat) by w_lia.
  assert (H3 : (w q < n)%nat) by w_lia.
  destruct (IH q r H2 H3) as (b & p' & E' & HQ').
  exists b, p'. split; [exact E' |]. prove_post.
  intros Hl. clean. clean. assumption.
Qed.

Lemma parseExpr_body_spec prec p :
  (w p <= f)%nat ->
  returns (parseExpr_body rec fuel prec) p (post wf p).
Proof.
  intros Hf. unfold returns, parseExpr_body. exec.
  destruct (lookup (prefixParsers rec fuel) (item.Typ (cur p))) as [prefixFn |] eqn:E;
    exec; [| done_; prove_post; lia].
  destruct (prefixParsers_spec _ _ E) as [Hne Hfn].
  call (Hfn p eq_refl Hf).
  assert (H1 : (w q <= f)%nat) by w_lia.
  assert (H2 : (w q < fuel)%nat) by w_lia.
  call (parseExpr_loop_spec prec fuel q r H1 H2).
  destruct (item.Is (peek q0) item.SEMICOLON); exec; done_; prove_post;
    clean; clean.
Qed.

End Specs.

(* ------------------------------------------------------------------ *)
(** ** [parseExpr] and [parse] return *)

Lemma parseExpr_returns fuel : forall prec p,
  (w p < fuel)%nat -> returns (parseExpr fuel prec) p (post wf p).
Proof.
  induction fuel as [| fuel IH]; intros prec p Hw; [lia |].
  cbn [parseExpr].
  apply (parseExpr_body_spec (parseExpr fuel) fuel (S fuel) IH); lia.
Qed.

Lemma addStatement_app block s :
  addStatement block s = (block ++ addStatement [] s)%list.
Proof.
  unfold addStatement. destruct (ast.isNil s); cbn.
  - now rewrite app_nil_r.
  - reflexivity.
Qed.

Lemma parse_loop_spec fuel n : forall p block,
  (w p < fuel)%nat -> (w p < n)%nat ->
  returns (parse_loop fuel n block) p
    (fun r p' =>
       post (fun _ => True) p r p'
       /\ (exists l, r = (block ++ l)%list /\ statements fuel p l p'
                     /\ (nerr p' = nerr p -> Forall wf l))).
Proof.
  induction n as [| n IH]; intros p block Hf Hn; [lia |].
  unfold returns. cbn [parse_loop]. exec.
  destruct (item.Is (cur p) item.EOF) eqn:E; exec.
  { done_. split; [prove_post; auto |].
    exists []. rewrite app_nil_r. repeat split; [now constructor | constructor]. }
  pose proof (w_cur_pos _ E) as Hpos.
  destruct (parseStatement_spec (parseExpr fuel) fuel (parseExpr_returns fuel) p Hf)
    as (s & p1 & Es & Hs).
  unfold bind at 1. rewrite Es. exec.
  assert (H1 : (w (next_state p1) < fuel)%nat) by w_lia.
  assert (H2 : (w (next_state p1) < n)%nat) by w_lia.
  destruct (IH (next_state p1) (addStatement block s) H1 H2)
    as (b & p' & E' & HQ' & l & -> & Hl & Hwf).
  eexists _, p'. split; [exact E' |]. split; [prove_post; auto |].
  exists (addStatement [] s ++ l)%list. split; [| split].
  - rewrite (addStatement_app block s). now rewrite app_assoc.
  - now apply statements_step with p1.
  - split_post. w_facts. intros Hc. apply Forall_app. split.
    + apply wf_addStatement; [constructor |]. intros _. clean.
    + apply Hwf. lia.
Qed.

Lemma w_newParser input : (w (newParser input) <= 3 * List.length input)%nat.
Proof.
  unfold w, newParser. cbn [cur peek items].
  destruct input as [| i [| j rest]]; cbn [recv fst snd List.length].
  - cbn. lia.
  - pose proof (realToken_le i). rewrite realToken_EOFItem. lia.
  - pose proof (realToken_le i). pose proof (realToken_le j). lia.
Qed.

Lemma Parse_spec fuel input :
  (3 * List.length input < fuel)%nat ->
  exists stmts p',
    Parse fuel input = Some (ast.Block stmts, errs p')
    /\ statements fuel (newParser input) stmts p'
    /\ (errs p' = [] -> Forall wf stmts).
Proof.
  intros Hfuel. pose proof (w_newParser input) as Hw.
  destruct (parse_loop_spec fuel fuel (newParser input) [])
    as (r & p' & E & _ & l & -> & Hl & Hwf); [lia | lia |].
  exists l, p'. unfold Parse, parse, bind. rewrite E. cbn.
  repeat split; [assumption |].
  intros He. apply Hwf. unfold nerr. now rewrite He.
Qed.

(* ------------------------------------------------------------------ *)
(** ** More fuel does not change a result *)

Lemma refines_refl {A} (m : M A) : refines m m.
Proof. intros p r H. exact H. Qed.

Lemma refines_outOfFuel {A} (m : M A) : refines outOfFuel m.
Proof. intros p r H. discriminate. Qed.

Lemma refines_bind {A B} (m1 m2 : M A) (k1 k2 : A -> M B) :
  refines m1 m2 -> (forall a, refines (k1 a) (k2 a)) ->
  refines (bind m1 k1) (bind m2 k2).
Proof.
  intros Hm Hk p r. unfold bind.
  destruct (m1 p) as [[a p'] |] eqn:E; [| discriminate].
  rewrite (Hm _ _ E). apply Hk.
Qed.

Lemma refines_if {A} (b : bool) (x1 x2 y1 y2 : M A) :
  refines x1 x2 -> refines y1 y2 ->
  refines (if b then x1 else y1) (if b then x2 else y2).
Proof. destruct b; auto. Qed.

Create HintDb mono discriminated.

Ltac mono :=
  repeat match goal with
         | |- refines ?m ?m => apply refines_refl
         | |- refines outOfFuel _ => apply refines_outOfFuel
         | |- refines (if ?b then _ else _) (if ?b then _ else _) =>
             apply refines_if
         | |- refines (bind _ _) (bind _ _) => apply refines_bind; [| intros ?]
         | |- refines _ _ => solve [auto with mono nocore]
         end.

Section Mono.

Variables rec1 rec2 : Z -> M ast.Node.
Variables fuel1 fuel2 : nat.
Hypothesis Hrec : forall prec, refines (rec1 prec) (rec2 prec).
Hypothesis Hfuel : (fuel1 <= fuel2)%nat.

#[local] Hint Resolve Hrec : mono.

Lemma parseFunctionParams_loop_mono n1 : forall n2 ret_,
  (n1 <= n2)%nat ->
  refines (parseFunctionParams_loop n1 ret_) (parseFunctionParams_loop n2 ret_).
Proof.
  induction n1 as [| n1 IH]; intros n2 ret_ Hn; [apply refines_outOfFuel |].
  destruct n2 as [| n2]; [lia |]. cbn [parseFunctionParams_loop].
  mono. apply IH. lia.
Qed.

Lemma parseReturn_mono : refines (parseReturn rec1) (parseReturn rec2).
Proof. unfold parseReturn. mono. Qed.
#[local] Hint Resolve parseReturn_mono : mono.

Lemma parseStatement_mono : refines (parseStatement rec1) (parseStatement rec2).
Proof. unfold parseStatement. mono. Qed.
#[local] Hint Resolve parseStatement_mono : mono.

Lemma parseGroupedExpr_mono :
  refines (parseGroupedExpr rec1) (parseGroupedExpr rec2).
Proof. unfold parseGroupedExpr. mono. Qed.

Lemma parseBlock_loop_mono n1 : forall n2 block,
  (n1 <= n2)%nat ->
  refines (parseBlock_loop rec1 n1 block) (parseBlock_loop rec2 n2 block).
Proof.
  induction n1 as [| n1 IH]; intros n2 block Hn; [apply refines_outOfFuel |].
  destruct n2 as [| n2]; [lia |]. cbn [parseBlock_loop].
  mono. apply IH. lia.
Qed.

Lemma parseBlock_mono : refines (parseBlock rec1 fuel1) (parseBlock rec2 fuel2).
Proof. unfold parseBlock. mono. now apply parseBlock_loop_mono. Qed.
#[local] Hint Resolve parseBlock_mono : mono.

Lemma parseIfExpr_rec_mono n1 : forall n2,
  (n1 <= n2)%nat ->
  refines (parseIfExpr_rec rec1 fuel1 n1) (parseIfExpr_rec rec2 fuel2 n2).
Proof.
  induction n1 as [| n1 IH]; intros n2 Hn; [apply refines_outOfFuel |].
  destruct n2 as [| n2]; [lia |]. cbn [parseIfExpr_rec].
  mono. apply IH. lia.
Qed.

Lemma parseNodeList_loop_mono n1 : forall n2 nodes,
  (n1 <= n2)%nat ->
  refines (parseNodeList_loop rec1 n1 nodes) (parseNodeList_loop rec2 n2 nodes).
Proof.
  induction n1 as [| n1 IH]; intros n2 nodes Hn; [apply refines_outOfFuel |].
  destruct n2 as [| n2]; [lia |]. cbn [parseNodeList_loop].
  mono. apply IH. lia.
Qed.

Lemma parseNodeList_mono end_ :
  refines (parseNodeList rec1 fuel1 end_) (parseNodeList rec2 fuel2 end_).
Proof. unfold parseNodeList. mono. now apply parseNodeList_loop_mono. Qed.
#[local] Hint Resolve parseNodeList_mono : mono.

Lemma parseFunctionParams_mono :
  refines (parseFunctionParams fuel1) (parseFunctionParams fuel2).
Proof.
  unfold parseFunctionParams. mono. now apply parseFunctionParams_loop_mono.
Qed.
#[local] Hint Resolve parseFunctionParams_mono : mono.

Lemma parseBinary_mono New left :
  refines (parseBinary rec1 New left) (parseBinary rec2 New left).
Proof. unfold parseBinary. mono. Qed.

Lemma prefixParsers_mono t :
  match lookup (prefixParsers rec1 fuel1) t, lookup (prefixParsers rec2 fuel2) t with
  | Some g1, Some g2 => refines g1 g2
  | None, None => True
  | _, _ => False
  end.
Proof.
  destruct t; table; try exact I; try apply refines_refl.
  - unfold parsePrefixMinus. mono.
  - unfold parseBang. mono.
  - apply parseGroupedExpr_mono.
  - unfold parseList. mono.
  - unfold parseFunction. mono.
  - now apply parseIfExpr_rec_mono.
Qed.

Lemma infixParsers_mono t :
  match lookup (infixParsers rec1 fuel1) t, lookup (infixParsers rec2 fuel2) t with
  | Some g1, Some g2 => forall left, refines (g1 left) (g2 left)
  | None, None => True
  | _, _ => False
  end.
Proof.
  destruct t; table; try exact I; intros left;
    try apply parseBinary_mono.
  - unfold parseCall. mono.
  - unfold parseIndex. mono.
Qed.

Lemma parseExpr_loop_mono prec n1 : forall n2 leftExp,
  (n1 <= n2)%nat ->
  refines (parseExpr_loop rec1 fuel1 n1 prec leftExp)
          (parseExpr_loop rec2 fuel2 n2 prec leftExp).
Proof.
  induction n1 as [| n1 IH]; intros n2 leftExp Hn; [apply refines_outOfFuel |].
  destruct n2 as [| n2]; [lia |]. cbn [parseExpr_loop].
  apply refines_bind; [apply refines_refl | intros pk].
  apply refines_bind; [apply refines_refl | intros pp].
  apply refines_if; [| apply refines_refl].
  pose proof (infixParsers_mono (item.Typ pk)) as H.
  destruct (lookup (infixParsers rec1 fuel1) (item.Typ pk)),
           (lookup (infixParsers rec2 fuel2) (item.Typ pk));
    try contradiction; [| apply refines_refl].
  mono. apply IH. lia.
Qed.

Lemma parseExpr_body_mono prec :
  refines (parseExpr_body rec1 fuel1 prec) (parseExpr_body rec2 fuel2 prec).
Proof.
  unfold parseExpr_body.
  apply refines_bind; [apply refines_refl | intros c].
  pose proof (prefixParsers_mono (item.Typ c)) as H.
  destruct (lookup (prefixParsers rec1 fuel1) (item.Typ c)),
           (lookup (prefixParsers rec2 fuel2) (item.Typ c));
    try contradiction; [| apply refines_refl].
  apply refines_bind; [assumption | intros leftExp].
  apply refines_bind; [now apply parseExpr_loop_mono | intros leftExp'].
  mono.
Qed.

End Mono.

Lemma parseExpr_mono fuel1 : forall fuel2 prec,
  (fuel1 <= fuel2)%nat ->
  refines (parseExpr fuel1 prec) (parseExpr fuel2 prec).
Proof.
  induction fuel1 as [| fuel1 IH]; intros fuel2 prec Hf;
    [apply refines_outOfFuel |].
  destruct fuel2 as [| fuel2]; [lia |]. cbn [parseExpr].
  apply parseExpr_body_mono; [| lia]. intros prec'. apply IH. lia.
Qed.

Lemma parse_loop_mono fuel1 fuel2 n1 : forall n2 block,
  (fuel1 <= fuel2)%nat -> (n1 <= n2)%nat ->
  refines (parse_loop fuel1 n1 block) (parse_loop fuel2 n2 block).
Proof.
  induction n1 as [| n1 IH]; intros n2 block Hf Hn; [apply refines_outOfFuel |].
  destruct n2 as [| n2]; [lia |]. cbn [parse_loop].
  apply refines_bind; [apply refines_refl | intros c].
  apply refines_if; [| apply refines_refl].
  apply refines_bind.
  - apply parseStatement_mono. intros prec. now apply parseExpr_mono.
  - intros s. apply refines_bind; [apply refines_refl | intros _].
    apply IH; [assumption | lia].
Qed.

(** A result of [Parse] stays the result with any larger fuel. *)
Lemma Parse_mono fuel1 fuel2 input r :
  (fuel1 <= fuel2)%nat ->
  Parse fuel1 input = Some r -> Parse fuel2 input = Some r.
Proof.
  intros Hf. unfold Parse, parse.
  destruct (bind (parse_loop fuel1 fuel1 []) _ (newParser input))
    as [[prog p] |] eqn:E; [| discriminate].
  assert (H : refines (block <- parse_loop fuel1 fuel1 [] ;; ret (ast.Block block))
                      (block <- parse_loop fuel2 fuel2 [] ;; ret (ast.Block block))).
  { apply refines_bind; [now apply parse_loop_mono | intros a; apply refines_refl]. }
  now rewrite (H _ _ E).
Qed.

(* ------------------------------------------------------------------ *)
(** ** Properties of the parser *)

Lemma statements_stop fuel p l p' :
  statements fuel p l p' -> item.Is (cur p') item.EOF = true.
Proof. induction 1; assumption. Qed.

Lemma statements_at_EOF fuel p l p' :
  statements fuel p l p' -> item.Is (cur p) item.EOF = true ->
  l = [] /\ p' = p.
Proof. intros H E. destruct H; [auto | congruence]. Qed.

Lemma parseExpr_loop_stops rec fuel n prec leftExp p :
  precedenceOf (item.Typ (peek p)) <= prec ->
  parseExpr_loop rec fuel (S n) prec leftExp p = Some (leftExp, p).
Proof.
  intros H. cbn [parseExpr_loop]. exec. fold (precedenceOf (item.Typ (peek p))).
  apply Z.ltb_ge in H. rewrite H, andb_false_r. reflexivity.
Qed.

Lemma no_precedence_no_infix rec fuel t :
  lookup precedences t = None -> lookup (infixParsers rec fuel) t = None.
Proof. destruct t; table; intros H; try discriminate; reflexivity. Qed.

Lemma parseExpr_loop_unregistered rec fuel n prec leftExp p :
  lookup precedences (item.Typ (peek p)) = None ->
  parseExpr_loop rec fuel (S n) prec leftExp p = Some (leftExp, p).
Proof.
  intros H. cbn [parseExpr_loop]. exec.
  rewrite (no_precedence_no_infix rec fuel _ H).
  destruct (_ && _); reflexivity.
Qed.

(** C5, as amended.  Every binary operator, that is every token kind with
    a registered infix function other than [(] (call) and [[] (index),
    parses left-associatively: its infix function parses the right operand
    with the precedence of the operator itself, the loop of [parseExpr]
    stops unless the minimum precedence is strictly below that of the
    peek token, and [a t b t c] parses to the tree [((a t b) t c)]. *)
Theorem binary_operators_left_associative t New :
  binaryNode t = Some New ->
  (forall rec fuel, lookup (infixParsers rec fuel) t = Some (parseBinary rec New))
  /\ (forall rec left p,
        parseBinary rec New left p =
          match rec (precedenceOf (item.Typ (cur p))) (next_state p) with
          | Some (operand, p') => Some (New left operand, p')
          | None => None
          end)
  /\ (forall rec fuel n prec leftExp p,
        precedenceOf (item.Typ (peek p)) <= prec ->
        parseExpr_loop rec fuel (S n) prec leftExp p = Some (leftExp, p))
  /\ (forall a b c v1 v2 v3 fuel,
        (3 <= fuel)%nat ->
        Parse fuel [ident a; item.mkItem t v1; ident b; item.mkItem t v2;
                    ident c; item.mkItem item.EOF v3] =
          Some (ast.Block [New (New (ast.Identifier a) (ast.Identifier b))
                               (ast.Identifier c)], [])).
Proof.
  intros H. split; [| split; [| split]].
  - intros rec fuel. destruct t; try discriminate; injection H as <-;
      table; reflexivity.
  - reflexivity.
  - intros. now apply parseExpr_loop_stops.
  - intros a b c v1 v2 v3 fuel Hf. apply Parse_mono with 3%nat; [assumption |].
    destruct t; try discriminate; injection H as <-; vm_compute; reflexivity.
Qed.

(** C6.  [**] has precedence [PRODUCT] but no infix function, so on
    [a ** b] the loop of [parseExpr] leaves [a] alone, the next statement
    starts at [**], which has no prefix function either: no power node is
    built, the statements are [a] and [b], and the one error recorded is
    "no parse prefix function for '...' found", with the [%s] rendering of
    the kind of [**] between the quotes. *)
Theorem power_has_no_infix_parser a b v1 v2 fuel :
  (4 <= fuel)%nat ->
  lookup precedences item.POWER = Some PRODUCT
  /\ (forall rec fuel', lookup (infixParsers rec fuel') item.POWER = None)
  /\ (forall rec fuel', lookup (prefixParsers rec fuel') item.POWER = None)
  /\ Parse fuel [ident a; item.mkItem item.POWER v1; ident b;
                 item.mkItem item.EOF v2] =
       Some (ast.Block [ast.Identifier a; ast.Identifier b],
             ["no parse prefix function for '" ++ fmtTypeS item.POWER ++ "' found"]).
Proof.
  intros Hf. repeat split.
  apply Parse_mono with 4%nat; [assumption |]. vm_compute. reflexivity.
Qed.

(** C7.  With enough fuel (more than three times the number of tokens)
    [Parse] returns, and its root is a Block: the main loop parses one
    statement per iteration, a return statement when the current token is
    [return] and an expression otherwise, keeps the results that are not
    nil in order, and stops at the first state whose current token is
    [EOF]; when the first token is [EOF] the Block is empty. *)
Theorem Parse_returns_Block input fuel :
  (3 * List.length input < fuel)%nat ->
  exists stmts p',
    Parse fuel input = Some (ast.Block stmts, errs p')
    /\ statements fuel (newParser input) stmts p'
    /\ item.Is (cur p') item.EOF = true
    /\ (forall p, parseStatement (parseExpr fuel) p =
                    if item.Is (cur p) item.RETURN
                    then parseReturn (parseExpr fuel) p
                    else parseExpr fuel LOWEST p)
    /\ (forall i rest, input = i :: rest -> item.Typ i = item.EOF ->
          stmts = [] /\ errs p' = []).
Proof.
  intros Hf. destruct (Parse_spec fuel input Hf) as (stmts & p' & E & Hs & _).
  exists stmts, p'.
  split; [exact E |]. split; [exact Hs |].
  split; [now apply statements_stop with fuel (newParser input) stmts |].
  split.
  { intros p. unfold parseStatement, bind, gets.
    destruct (item.Is (cur p) item.RETURN); reflexivity. }
  intros i rest -> Hi.
  destruct (statements_at_EOF _ _ _ _ Hs) as [-> ->]; [| split; reflexivity].
  apply item.Is_true_iff. exact Hi.
Qed.

(** C8, as amended.  A nil node never appears silently in a required
    child slot: when [parseExpr] returns a tree that is nil or has a nil
    child other than the absent else-branch of an if expression, it has
    appended an error; and a tree that [Parse] returns with an empty
    error list has every child slot populated, the else-branch of an if
    without [else] apart. *)
Theorem Parse_no_error_populated :
  (forall fuel prec p n p',
     parseExpr fuel prec p = Some (n, p') ->
     populated n = false -> (nerr p < nerr p')%nat)
  /\ (forall fuel input root errs_,
        Parse fuel input = Some (root, errs_) ->
        errs_ = [] -> populated root = true).
Proof.
  split.
  - intros fuel prec p n p' E Hn.
    destruct (parseExpr_returns (S (Nat.max fuel (w p))) prec p)
      as (n' & q & E' & Hw & He & HR); [lia |].
    assert (Hle : (fuel <= S (Nat.max fuel (w p)))%nat) by lia.
    rewrite (parseExpr_mono fuel _ prec Hle _ _ E) in E'.
    injection E' as <- <-.
    destruct (Nat.eq_dec (nerr p') (nerr p)) as [Heq | Hne]; [| lia].
    specialize (HR Heq). unfold wf in HR. congruence.
  - intros fuel input root errs_ E ->.
    destruct (Parse_spec (S (Nat.max fuel (3 * List.length input))) input)
      as (stmts & p' & E' & _ & Hwf); [lia |].
    assert (Hle : (fuel <= S (Nat.max fuel (3 * List.length input)))%nat) by lia.
    rewrite (Parse_mono fuel _ input _ Hle E) in E'.
    injection E' as -> He. cbn [populated]. apply wf_Forall. apply Hwf.
    now symmetry.
Qed.

Lemma parseExpr_unfold fuel prec p g :
  lookup (prefixParsers (parseExpr fuel) (S fuel)) (item.Typ (cur p)) = Some g ->
  parseExpr (S fuel) prec p =
    (leftExp <- g ;;
     leftExp' <- parseExpr_loop (parseExpr fuel) (S fuel) (S fuel) prec leftExp ;;
     pk <- gets peek ;;
     (if item.Is pk item.SEMICOLON then next else ret tt) ;;
     ret leftExp') p.
Proof.
  intros H. cbn [parseExpr]. unfold parseExpr_body. exec. now rewrite H.
Qed.

Lemma parseExpr_loop_step rec fuel n prec leftExp p g :
  item.Is (peek p) item.SEMICOLON = false ->
  prec < precedenceOf (item.Typ (peek p)) ->
  lookup (infixParsers rec fuel) (item.Typ (peek p)) = Some g ->
  parseExpr_loop rec fuel (S n) prec leftExp p =
    (leftExp' <- g leftExp ;; parseExpr_loop rec fuel n prec leftExp') (next_state p).
Proof.
  intros Hs Hp Hg. cbn [parseExpr_loop]. exec.
  fold (precedenceOf (item.Typ (peek p))).
  apply Z.ltb_lt in Hp. rewrite Hs, Hp, Hg. reflexivity.
Qed.





(* ------------------------------------------------------------------ *)
(** ** Further properties: termination, tables, precedence *)

(** A token of kind [t]; the parser does not read the text of keywords,
    operators and punctuation. *)
Definition sym (t : item.Type_) : item.Item := item.mkItem t "".

(** The state whose current token is [c], with the tokens [s] still to
    come ([newParser (c :: s)] is [stateAt c s []]). *)
Definition stateAt (c : item.Item) (s : list item.Item) (e : list string) : Parser :=
  mkParser c (fst (recv s)) (snd (recv s)) e.

(** The kinds with a registered prefix function. *)
Definition prefixKind (t : item.Type_) : bool :=
  match t with
  | item.IDENT | item.INT | item.FLOAT | item.STRING | item.MINUS | item.BANG
  | item.TRUE | item.FALSE | item.LPAREN | item.IF | item.FUNCTION
  | item.LBRACKET => true
  | _ => false
  end.

Lemma w_bound p : (w p <= 3 * List.length (items p) + 3)%nat.
Proof.
  unfold w. pose proof (realToken_le (cur p)). pose proof (realToken_le (peek p)).
  lia.
Qed.

(** X3.  The tables of [newParser] and [precedences] agree: every kind
    with an infix function has a precedence above [LOWEST], every kind
    with a precedence has an infix function except [**], and the kinds
    with a prefix function are the twelve of [prefixKind]; [-], [(] and
    [[] are the kinds with both. *)
Theorem tables_consistent rec fuel t :
  (lookup (infixParsers rec fuel) t <> None -> LOWEST < precedenceOf t)
  /\ (lookup precedences t <> None ->
      lookup (infixParsers rec fuel) t <> None \/ t = item.POWER)
  /\ (lookup (prefixParsers rec fuel) t <> None <-> prefixKind t = true)
  /\ (lookup (prefixParsers rec fuel) t <> None ->
      lookup (infixParsers rec fuel) t <> None ->
      t = item.MINUS \/ t = item.LPAREN \/ t = item.LBRACKET).
Proof.
  unfold precedenceOf.
  destruct t; table; cbn [prefixKind]; repeat split; intros;
    try congruence; try reflexivity; try discriminate;
    try (left; discriminate); auto.
Qed.

(* ------------------------------------------------------------------ *)
(** ** Further properties: the parser only moves forward *)

Definition withErrs (e : list string) (p : Parser) : Parser :=
  mkParser (cur p) (peek p) (items p) e.

(** [moved p p']: [p'] is reached from [p] by steps of [next] and by
    appending errors. *)
Inductive moved : Parser -> Parser -> Prop :=
| moved_refl p : moved p p
| moved_next p q : moved p q -> moved p (next_state q)
| moved_err p q msg : moved p q -> moved p (addErr_state msg q).

(** Every run of [m] moves the parser forward. *)
Definition keeps {A} (m : M A) : Prop :=
  forall p a p', m p = Some (a, p') -> moved p p'.

Lemma moved_trans p q r : moved p q -> moved q r -> moved p r.
Proof.
  intros Hpq Hqr.
  induction Hqr; [assumption | apply moved_next | apply moved_err]; auto.
Qed.

Lemma iter_next_withErrs k e p :
  Nat.iter k next_state (withErrs e p) = withErrs e (Nat.iter k next_state p).
Proof.
  induction k as [| k IH]; [reflexivity |].
  rewrite !Nat.iter_succ, IH. reflexivity.
Qed.

Lemma moved_iter p p' :
  moved p p' ->
  exists k new, p' = withErrs (errs p ++ new) (Nat.iter k next_state p).
Proof.
  induction 1 as [p | p q _ (k & new & ->) | p q msg _ (k & new & ->)].
  - exists 0%nat, []. rewrite app_nil_r. now destruct p.
  - exists (S k), new. reflexivity.
  - exists k, (new ++ [msg])%list. unfold addErr_state, withErrs.
    cbn [cur peek items errs]. now rewrite app_assoc.
Qed.

Lemma items_iter_next k p :
  (List.length (items (Nat.iter k next_state p)) <= List.length (items p))%nat.
Proof.
  induction k as [| k IH]; [reflexivity |]. rewrite Nat.iter_succ.
  unfold next_state at 1. cbn [items].
  destruct (items (Nat.iter k next_state p)); cbn [recv snd List.length] in *; lia.
Qed.

Lemma keeps_ret {A} (a : A) : keeps (ret a).
Proof. intros p a' p' [= _ <-]. constructor. Qed.

Lemma keeps_bind {A B} (m : M A) (k : A -> M B) :
  keeps m -> (forall a, keeps (k a)) -> keeps (bind m k).
Proof.
  intros Hm Hk p b p'. unfold bind.
  destruct (m p) as [[a q] |] eqn:E; [| discriminate].
  intros H. apply moved_trans with q; [now apply (Hm _ _ _ E) | now apply (Hk a _ _ _ H)].
Qed.

Lemma keeps_gets {A} (f : Parser -> A) : keeps (gets f).
Proof. intros p a p' [= _ <-]. constructor. Qed.

Lemma keeps_next : keeps next.
Proof. intros p a p' [= _ <-]. repeat constructor. Qed.

Lemma keeps_appendErr msg : keeps (appendErr msg).
Proof. intros p a p' [= _ <-]. repeat constructor. Qed.

Lemma keeps_outOfFuel {A} : keeps (@outOfFuel A).
Proof. intros p a p' H. discriminate. Qed.

Lemma keeps_if {A} (b : bool) (x y : M A) :
  keeps x -> keeps y -> keeps (if b then x else y).
Proof. destruct b; auto. Qed.

Create HintDb keeps discriminated.

Ltac keep :=
  repeat match goal with
         | |- keeps (ret _) => apply keeps_ret
         | |- keeps (gets _) => apply keeps_gets
         | |- keeps next => apply keeps_next
         | |- keeps (appendErr _) => apply keeps_appendErr
         | |- keeps outOfFuel => apply keeps_outOfFuel
         | |- keeps (if _ then _ else _) => apply keeps_if
         | |- keeps (bind _ _) => apply keeps_bind; [| intros ?]
         | |- keeps (match ?x with Some _ => _ | None => _ end) => destruct x
         | |- keeps _ => solve [auto with keeps nocore]
         end.

Lemma keeps_precedence : keeps precedence.
Proof. apply keeps_gets. Qed.

Lemma keeps_peekPrecedence : keeps peekPrecedence.
Proof. apply keeps_gets. Qed.

Lemma keeps_expectPeek t : keeps (expectPeek t).
Proof. unfold expectPeek, peekError. keep. Qed.

Lemma keeps_noParsePrefixFnError t : keeps (noParsePrefixFnError t).
Proof. apply keeps_appendErr. Qed.

Lemma keeps_parseFunctionParams_loop n : forall ret_,
  keeps (parseFunctionParams_loop n ret_).
Proof.
  induction n as [| n IH]; intros ret_; cbn [parseFunctionParams_loop]; keep.
Qed.

#[local] Hint Resolve keeps_precedence keeps_peekPrecedence keeps_expectPeek
  keeps_noParsePrefixFnError keeps_parseFunctionParams_loop : keeps.

Section Keeps.

Variable rec : Z -> M ast.Node.
Variable fuel : nat.
Hypothesis Hrec : forall prec, keeps (rec prec).

#[local] Hint Resolve Hrec : keeps.

Lemma keeps_parseReturn : keeps (parseReturn rec).
Proof. unfold parseReturn. keep. Qed.
#[local] Hint Resolve keeps_parseReturn : keeps.

Lemma keeps_parseStatement : keeps (parseStatement rec).
Proof. unfold parseStatement. keep. Qed.
#[local] Hint Resolve keeps_parseStatement : keeps.

Lemma keeps_parseBlock_loop n : forall block, keeps (parseBlock_loop rec n block).
Proof.
  induction n as [| n IH]; intros block; cbn [parseBlock_loop]; keep.
Qed.
#[local] Hint Resolve keeps_parseBlock_loop : keeps.

Lemma keeps_parseBlock : keeps (parseBlock rec fuel).
Proof. unfold parseBlock. keep. Qed.
#[local] Hint Resolve keeps_parseBlock : keeps.

Lemma keeps_parseIfExpr_rec n : keeps (parseIfExpr_rec rec fuel n).
Proof. induction n as [| n IH]; cbn [parseIfExpr_rec]; keep. Qed.

Lemma keeps_parseNodeList_loop n : forall nodes,
  keeps (parseNodeList_loop rec n nodes).
Proof.
  induction n as [| n IH]; intros nodes; cbn [parseNodeList_loop]; keep.
Qed.
#[local] Hint Resolve keeps_parseNodeList_loop : keeps.

Lemma keeps_parseNodeList end_ : keeps (parseNodeList rec fuel end_).
Proof. unfold parseNodeList. keep. Qed.
#[local] Hint Resolve keeps_parseNodeList : keeps.

Lemma keeps_prefixParsers t g :
  lookup (prefixParsers rec fuel) t = Some g -> keeps g.
Proof.
  intros H. destruct t; table_in H; try discriminate; injection H as <-.
  - unfold parseIdentifier. keep.
  - unfold parseInteger. keep.
  - unfold parseFloat. keep.
  - unfold parseString. keep.
  - unfold parsePrefixMinus. keep.
  - unfold parseBang. keep.
  - unfold parseGroupedExpr. keep.
  - unfold parseList. keep.
  - unfold parseFunction, parseFunctionParams. keep.
  - apply keeps_parseIfExpr_rec.
  - unfold parseBoolean. keep.
  - unfold parseBoolean. keep.
Qed.

Lemma keeps_parseBinary New left : keeps (parseBinary rec New left).
Proof. unfold parseBinary. keep. Qed.

Lemma keeps_infixParsers t g left :
  lookup (infixParsers rec fuel) t = Some g -> keeps (g left).
Proof.
  intros H. destruct t; table_in H; try discriminate; injection H as <-;
    try apply keeps_parseBinary.
  - unfold parseCall. keep.
  - unfold parseIndex. keep.
Qed.

Lemma keeps_parseExpr_loop prec n : forall leftExp,
  keeps (parseExpr_loop rec fuel n prec leftExp).
Proof.
  induction n as [| n IH]; intros leftExp; cbn [parseExpr_loop];
    [apply keeps_outOfFuel |].
  apply keeps_bind; [apply keeps_gets | intros pk].
  apply keeps_bind; [apply keeps_gets | intros pp].
  apply keeps_if; [| apply keeps_ret].
  destruct (lookup (infixParsers rec fuel) (item.Typ pk)) as [g |] eqn:E;
    [| apply keeps_ret].
  keep. now apply keeps_infixParsers with (item.Typ pk).
Qed.

Lemma keeps_parseExpr_body prec : keeps (parseExpr_body rec fuel prec).
Proof.
  unfold parseExpr_body.
  apply keeps_bind; [apply keeps_gets | intros c].
  destruct (lookup (prefixParsers rec fuel) (item.Typ c)) as [g |] eqn:E;
    [| keep].
  keep; [now apply keeps_prefixParsers with (item.Typ c) | apply keeps_parseExpr_loop].
Qed.

End Keeps.

Lemma keeps_parseExpr fuel : forall prec, keeps (parseExpr fuel prec).
Proof.
  induction fuel as [| fuel IH]; intros prec; cbn [parseExpr];
    [apply keeps_outOfFuel | now apply keeps_parseExpr_body].
Qed.

Lemma keeps_parse_loop fuel n : forall block, keeps (parse_loop fuel n block).
Proof.
  induction n as [| n IH]; intros block; cbn [parse_loop];
    [apply keeps_outOfFuel |].
  apply keeps_bind; [apply keeps_gets | intros c].
  apply keeps_if; [| apply keeps_ret].
  apply keeps_bind; [apply keeps_parseStatement, keeps_parseExpr | intros s].
  apply keeps_bind; [apply keeps_next | intros _; apply IH].
Qed.

(** X4.  [parseExpr] returns from every parser state and for every
    minimum precedence, given fuel above three times the number of pending
    tokens plus three; it leaves no more to read than there was and does
    not shorten the error list. *)
Theorem parseExpr_terminates fuel prec p :
  (3 * List.length (items p) + 3 < fuel)%nat ->
  exists n p',
    parseExpr fuel prec p = Some (n, p')
    /\ (List.length (items p') <= List.length (items p))%nat
    /\ (List.length (errs p) <= List.length (errs p'))%nat.
Proof.
  intros Hf. pose proof (w_bound p) as Hb.
  destruct (parseExpr_returns fuel prec p) as (n & p' & E & Hw & He & _); [lia |].
  exists n, p'. split; [exact E |]. split; [| exact He].
  destruct (moved_iter _ _ (keeps_parseExpr fuel prec _ _ _ E)) as (k & new & ->).
  cbn [withErrs items]. apply items_iter_next.
Qed.

(** X5.  [parseExpr] and [parse] only move the parser forward: the
    final state is the initial one advanced by some number of [next]
    steps, with errors appended to the error list; no recorded error is
    dropped or changed and no token is read twice. *)
Theorem parser_only_moves_forward fuel :
  (forall prec p n p',
     parseExpr fuel prec p = Some (n, p') ->
     exists k new, p' = withErrs (errs p ++ new) (Nat.iter k next_state p))
  /\ (forall p prog p',
        parse fuel p = Some (prog, p') ->
        exists k new, p' = withErrs (errs p ++ new) (Nat.iter k next_state p)).
Proof.
  split.
  - intros prec p n p' H. apply moved_iter. exact (keeps_parseExpr fuel prec _ _ _ H).
  - intros p prog p' H. apply moved_iter. revert H. unfold parse.
    apply keeps_bind; [apply keeps_parse_loop | intros a; apply keeps_ret].
Qed.

(* ------------------------------------------------------------------ *)
(** ** Further properties: how operators nest *)

Ltac binary_cases H :=
  match type of H with
  | binaryNode ?t = Some _ => destruct t; try discriminate H; injection H as <-
  end.

(** X6.  Two binary operators in a row, [a t1 b t2 c]: when [t2] has the
    higher precedence it takes [b], giving [a t1 (b t2 c)]; otherwise,
    also at equal precedence, [t1] takes it, giving [(a t1 b) t2 c]. *)
Theorem binary_operators_precedence t1 New1 t2 New2 a b c fuel :
  binaryNode t1 = Some New1 -> binaryNode t2 = Some New2 ->
  (6 <= fuel)%nat ->
  Parse fuel [ident a; sym t1; ident b; sym t2; ident c; sym item.EOF] =
    Some (ast.Block
            [if precedenceOf t1 <? precedenceOf t2
             then New1 (ast.Identifier a) (New2 (ast.Identifier b) (ast.Identifier c))
             else New2 (New1 (ast.Identifier a) (ast.Identifier b)) (ast.Identifier c)],
          []).
Proof.
  intros H1 H2 Hf. apply Parse_mono with 6%nat; [assumption |].
  binary_cases H1; binary_cases H2; vm_compute; reflexivity.
Qed.

(** X7.  Parentheses override the precedences and leave no node of their
    own: [(a t1 b) t2 c] and [a t1 (b t2 c)] parse to the trees the
    parentheses spell, for every two binary operators.  A group that is
    not closed is dropped with the error of the failed [expectPeek]. *)
Theorem parentheses_group t1 New1 t2 New2 a b c fuel :
  binaryNode t1 = Some New1 -> binaryNode t2 = Some New2 ->
  (8 <= fuel)%nat ->
  Parse fuel [sym item.LPAREN; ident a; sym t1; ident b; sym item.RPAREN;
              sym t2; ident c; sym item.EOF] =
    Some (ast.Block
            [New2 (New1 (ast.Identifier a) (ast.Identifier b)) (ast.Identifier c)],
          [])
  /\ Parse fuel [ident a; sym t1; sym item.LPAREN; ident b; sym t2; ident c;
                 sym item.RPAREN; sym item.EOF] =
    Some (ast.Block
            [New1 (ast.Identifier a) (New2 (ast.Identifier b) (ast.Identifier c))],
          [])
  /\ Parse fuel [sym item.LPAREN; ident a; sym t1; ident b; sym item.EOF] =
    Some (ast.Block [],
          ["expected next item to be " ++ fmtType item.RPAREN ++ ", got "
           ++ fmtType item.EOF ++ " instead"]).
Proof.
  intros H1 H2 Hf.
  split; [| split]; (apply Parse_mono with 8%nat; [assumption |]);
    binary_cases H1; binary_cases H2; vm_compute; reflexivity.
Qed.

(** X8.  The prefix operators [-] and [!] bind tighter than every binary
    operator, [- a t b] is [(-a) t b], and looser than call and index,
    [- f(x)] is [-(f(x))] and [- l[i]] is [-(l[i])]. *)
Theorem prefix_operators_precedence t New a b fuel :
  binaryNode t = Some New ->
  (8 <= fuel)%nat ->
  Parse fuel [sym item.MINUS; ident a; sym t; ident b; sym item.EOF] =
    Some (ast.Block [New (ast.PrefixMinus (ast.Identifier a)) (ast.Identifier b)], [])
  /\ Parse fuel [sym item.BANG; ident a; sym t; ident b; sym item.EOF] =
    Some (ast.Block [New (ast.Bang (ast.Identifier a)) (ast.Identifier b)], [])
  /\ Parse fuel [sym item.MINUS; ident a; sym item.LPAREN; ident b;
                 sym item.RPAREN; sym item.EOF] =
    Some (ast.Block
            [ast.PrefixMinus (ast.Call (ast.Identifier a) [ast.Identifier b])], [])
  /\ Parse fuel [sym item.BANG; ident a; sym item.LPAREN; ident b;
                 sym item.RPAREN; sym item.EOF] =
    Some (ast.Block [ast.Bang (ast.Call (ast.Identifier a) [ast.Identifier b])], [])
  /\ Parse fuel [sym item.MINUS; ident a; sym item.LBRACKET; ident b;
                 sym item.RBRACKET; sym item.EOF] =
    Some (ast.Block
            [ast.PrefixMinus (ast.Index (ast.Identifier a) (ast.Identifier b))], [])
  /\ Parse fuel [sym item.BANG; ident a; sym item.LBRACKET; ident b;
                 sym item.RBRACKET; sym item.EOF] =
    Some (ast.Block [ast.Bang (ast.Index (ast.Identifier a) (ast.Identifier b))], []).
Proof.
  intros H Hf.
  repeat apply conj; (apply Parse_mono with 8%nat; [assumption |]);
    try binary_cases H; vm_compute; reflexivity.
Qed.

(** X9.  Call and index are postfix operators: they bind tighter than
    every binary operator, [a t f(x)] is [a t (f(x))] and [a t l[i]] is
    [a t (l[i])], and they chain to the left: [f(a)(b)] calls the result
    of [f(a)], [l[i][j]] indexes [l[i]], [f(a)[i]] indexes the call and
    [l[i](a)] calls the element. *)
Theorem call_and_index_postfix t New a f x y fuel :
  binaryNode t = Some New ->
  (8 <= fuel)%nat ->
  Parse fuel [ident a; sym t; ident f; sym item.LPAREN; ident x;
              sym item.RPAREN; sym item.EOF] =
    Some (ast.Block
            [New (ast.Identifier a) (ast.Call (ast.Identifier f) [ast.Identifier x])],
          [])
  /\ Parse fuel [ident a; sym t; ident f; sym item.LBRACKET; ident x;
                 sym item.RBRACKET; sym item.EOF] =
    Some (ast.Block
            [New (ast.Identifier a) (ast.Index (ast.Identifier f) (ast.Identifier x))],
          [])
  /\ Parse fuel [ident f; sym item.LPAREN; ident x; sym item.RPAREN;
                 sym item.LPAREN; ident y; sym item.RPAREN; sym item.EOF] =
    Some (ast.Block
            [ast.Call (ast.Call (ast.Identifier f) [ast.Identifier x])
                      [ast.Identifier y]], [])
  /\ Parse fuel [ident f; sym item.LBRACKET; ident x; sym item.RBRACKET;
                 sym item.LBRACKET; ident y; sym item.RBRACKET; sym item.EOF] =
    Some (ast.Block
            [ast.Index (ast.Index (ast.Identifier f) (ast.Identifier x))
                       (ast.Identifier y)], [])
  /\ Parse fuel [ident f; sym item.LPAREN; ident x; sym item.RPAREN;
                 sym item.LBRACKET; ident y; sym item.RBRACKET; sym item.EOF] =
    Some (ast.Block
            [ast.Index (ast.Call (ast.Identifier f) [ast.Identifier x])
                       (ast.Identifier y)], [])
  /\ Parse fuel [ident f; sym item.LBRACKET; ident x; sym item.RBRACKET;
                 sym item.LPAREN; ident y; sym item.RPAREN; sym item.EOF] =
    Some (ast.Block
            [ast.Call (ast.Index (ast.Identifier f) (ast.Identifier x))
                      [ast.Identifier y]], []).
Proof.
  intros H Hf.
  repeat apply conj; (apply Parse_mono with 8%nat; [assumption |]);
    try binary_cases H; vm_compute; reflexivity.
Qed.

(* ------------------------------------------------------------------ *)
(** ** Further properties: sequences of statements, arguments, parameters *)

(** The state at the head of the token sequence [s]. *)
Definition stateOf (s : list item.Item) (e : list string) : Parser :=
  match s with
  | c :: s' => stateAt c s' e
  | [] => stateAt EOFItem [] e
  end.

Lemma newParser_stateOf input : newParser input = stateOf input [].
Proof. destruct input; reflexivity. Qed.

Lemma next_stateAt c s e : next_state (stateAt c s e) = stateOf s e.
Proof. destruct s; reflexivity. Qed.

Lemma prefixParsers_IDENT rec fuel :
  lookup (prefixParsers rec fuel) item.IDENT = Some parseIdentifier.
Proof. table. reflexivity. Qed.

Lemma prefixParsers_none rec fuel t :
  prefixKind t = false -> lookup (prefixParsers rec fuel) t = None.
Proof. destruct t; intros H; try discriminate H; table; reflexivity. Qed.

(** An identifier followed by a token without precedence is an expression
    of its own; a [;] after it is consumed. *)
Lemma parseExpr_ident fuel prec a i s e :
  lookup precedences (item.Typ i) = None ->
  parseExpr (S fuel) prec (stateAt (ident a) (i :: s) e) =
    Some (ast.Identifier a,
          if item.Is i item.SEMICOLON then stateAt i s e
          else stateAt (ident a) (i :: s) e).
Proof.
  intros Hi. cbn [parseExpr]. unfold parseExpr_body. exec.
  change (item.Typ (cur (stateAt (ident a) (i :: s) e))) with item.IDENT.
  rewrite prefixParsers_IDENT.
  unfold bind at 1. unfold parseIdentifier at 1. exec.
  unfold bind at 1.
  change (item.Val (cur (stateAt (ident a) (i :: s) e))) with a.
  rewrite (parseExpr_loop_unregistered (parseExpr fuel) (S fuel) fuel prec
             (ast.Identifier a) (stateAt (ident a) (i :: s) e) Hi). exec.
  change (peek (stateAt (ident a) (i :: s) e)) with i.
  destruct (item.Is i item.SEMICOLON); reflexivity.
Qed.

(** The tokens of the statements [a1 a2 ...], each identifier followed
    by [;] or not. *)
Definition stmtToks (l : list (string * bool)) : list item.Item :=
  flat_map (fun x : string * bool =>
              ident (fst x) :: (if snd x then [sym item.SEMICOLON] else [])) l.

Lemma stmtToks_head l :
  exists i s, (stmtToks l ++ [sym item.EOF])%list = i :: s
              /\ lookup precedences (item.Typ i) = None
              /\ item.Is i item.SEMICOLON = false.
Proof.
  destruct l as [| [a semi] l']; cbn; eauto.
Qed.

Lemma parseStatement_not_return rec p :
  item.Is (cur p) item.RETURN = false ->
  parseStatement rec p = rec LOWEST p.
Proof. intros H. unfold parseStatement, bind, gets. now rewrite H. Qed.

Lemma parse_loop_step fuel n block p s p1 :
  item.Is (cur p) item.EOF = false ->
  parseStatement (parseExpr fuel) p = Some (s, p1) ->
  parse_loop fuel (S n) block p =
    parse_loop fuel n (addStatement block s) (next_state p1).
Proof.
  intros H E. cbn [parse_loop]. unfold bind at 1. unfold gets at 1.
  rewrite H. cbn [negb]. unfold bind at 1. rewrite E. reflexivity.
Qed.

Lemma parse_loop_stop fuel n block p :
  item.Is (cur p) item.EOF = true ->
  parse_loop fuel (S n) block p = Some (block, p).
Proof.
  intros H. cbn [parse_loop]. unfold bind, gets. now rewrite H.
Qed.

Lemma parse_loop_statements fuel n : forall l block e,
  (List.length l < n)%nat ->
  parse_loop (S fuel) n block (stateOf (stmtToks l ++ [sym item.EOF]) e) =
    Some ((block ++ map (fun x : string * bool => ast.Identifier (fst x)) l)%list,
          stateOf [sym item.EOF] e).
Proof.
  induction n as [| n IH]; intros l block e Hn; [lia |].
  destruct l as [| [a semi] l'].
  - rewrite app_nil_r. now apply parse_loop_stop.
  - cbn [List.length] in Hn.
    destruct (stmtToks_head l') as (i & s & Es & Hi & Hsemi).
    assert (E : exists p1,
               parseStatement (parseExpr (S fuel))
                 (stateOf (stmtToks ((a, semi) :: l') ++ [sym item.EOF]) e)
               = Some (ast.Identifier a, p1)
               /\ next_state p1 = stateOf (stmtToks l' ++ [sym item.EOF]) e).
    { cbn [stmtToks flat_map fst snd]. fold (stmtToks l').
      rewrite <- !app_assoc, <- app_comm_cons. cbn [stateOf].
      rewrite parseStatement_not_return by reflexivity.
      destruct semi; cbn [app].
      - rewrite parseExpr_ident by reflexivity. eexists; split; [reflexivity |].
        cbn [item.Is sym item.Typ]. apply next_stateAt.
      - rewrite Es. rewrite parseExpr_ident by assumption. rewrite Hsemi.
        eexists; split; [reflexivity |]. apply next_stateAt. }
    destruct E as (p1 & E1 & E2).
    assert (Hc : item.Is (cur (stateOf (stmtToks ((a, semi) :: l')
                                        ++ [sym item.EOF]) e)) item.EOF = false)
      by reflexivity.
    rewrite (parse_loop_step _ _ _ _ _ _ Hc E1), E2.
    rewrite IH by lia. cbn [map fst addStatement ast.isNil].
    now rewrite <- app_assoc.
Qed.

(** X10.  Statements need no separator: a run of identifiers, each
    followed by [;] or not, parses to one statement per identifier, in
    order and without error. *)
Theorem statements_semicolon_optional l fuel :
  (List.length l < fuel)%nat ->
  Parse fuel (stmtToks l ++ [sym item.EOF]) =
    Some (ast.Block (map (fun x : string * bool => ast.Identifier (fst x)) l), []).
Proof.
  intros Hf. destruct fuel as [| fuel]; [lia |].
  unfold Parse, parse, bind. rewrite newParser_stateOf.
  rewrite parse_loop_statements by lia. reflexivity.
Qed.

(** The error [noParsePrefixFnError] records for a kind. *)
Definition noPrefixMsg (t : item.Type_) : string :=
  "no parse prefix function for '" ++ fmtTypeS t ++ "' found".

(** A token that cannot start a statement: no prefix function, not
    [return], not [EOF]. *)
Definition stray (i : item.Item) : Prop :=
  prefixKind (item.Typ i) = false
  /\ item.Typ i <> item.RETURN /\ item.Typ i <> item.EOF.

Lemma parseExpr_no_prefix fuel prec p :
  prefixKind (item.Typ (cur p)) = false ->
  parseExpr (S fuel) prec p =
    Some (ast.Nil, addErr_state (noPrefixMsg (item.Typ (cur p))) p).
Proof.
  intros H. cbn [parseExpr]. unfold parseExpr_body. exec.
  now rewrite (prefixParsers_none _ _ _ H).
Qed.

Lemma parse_loop_stray fuel n : forall toks block e,
  Forall stray toks -> (List.length toks < n)%nat ->
  parse_loop (S fuel) n block (stateOf (toks ++ [sym item.EOF]) e) =
    Some (block,
          stateOf [sym item.EOF]
                  (e ++ map (fun i => noPrefixMsg (item.Typ i)) toks)).
Proof.
  induction n as [| n IH]; intros toks block e Hs Hn; [lia |].
  destruct toks as [| t rest].
  - cbn [app map]. rewrite app_nil_r. now apply parse_loop_stop.
  - inversion Hs as [| ? ? (Hp & Hr & He) Hrest]; subst.
    cbn [List.length] in Hn. rewrite <- app_comm_cons. cbn [stateOf].
    assert (Hc : item.Is (cur (stateAt t (rest ++ [sym item.EOF]) e)) item.EOF = false)
      by (now apply item.Is_false_iff).
    assert (E : parseStatement (parseExpr (S fuel))
                  (stateAt t (rest ++ [sym item.EOF]) e)
                = Some (ast.Nil,
                        addErr_state (noPrefixMsg (item.Typ t))
                          (stateAt t (rest ++ [sym item.EOF]) e))).
    { rewrite parseStatement_not_return by (now apply item.Is_false_iff).
      now rewrite parseExpr_no_prefix. }
    rewrite (parse_loop_step _ _ _ _ _ _ Hc E).
    change (next_state (addErr_state (noPrefixMsg (item.Typ t))
                          (stateAt t (rest ++ [sym item.EOF]) e)))
      with (next_state (stateAt t (rest ++ [sym item.EOF])
                                (e ++ [noPrefixMsg (item.Typ t)]))).
    rewrite next_stateAt, IH by (assumption || lia).
    cbn [addStatement ast.isNil map]. now rewrite <- app_assoc.
Qed.

(** X11.  The parser recovers from tokens that cannot start a statement:
    each one costs exactly one error, "no parse prefix function for ...
    found", in the order of the tokens, adds no statement, and parsing
    goes on at the next token. *)
Theorem stray_tokens_skipped toks fuel :
  Forall stray toks -> (List.length toks < fuel)%nat ->
  Parse fuel (toks ++ [sym item.EOF]) =
    Some (ast.Block [], map (fun i => noPrefixMsg (item.Typ i)) toks).
Proof.
  intros Hs Hf. destruct fuel as [| fuel]; [lia |].
  unfold Parse, parse, bind. rewrite newParser_stateOf.
  rewrite parse_loop_stray by (assumption || lia). reflexivity.
Qed.

(** The tokens [a1 , a2 , ... , an] of a list of identifiers. *)
Definition moreToks (names : list string) : list item.Item :=
  flat_map (fun b : string => [sym item.COMMA; ident b]) names.

Definition argToks (names : list string) : list item.Item :=
  match names with
  | [] => []
  | a :: rest => ident a :: moreToks rest
  end.

Lemma last_cons_default {A} (x d : A) l : last (x :: l) d = last l x.
Proof.
  revert x d. induction l as [| y l IH]; intros x d; [reflexivity |].
  change (last (x :: y :: l) d) with (last (y :: l) d).
  now rewrite !IH.
Qed.

Lemma moreToks_head names i s :
  lookup precedences (item.Typ i) = None ->
  item.Is i item.SEMICOLON = false ->
  exists j s', (moreToks names ++ i :: s)%list = j :: s'
               /\ lookup precedences (item.Typ j) = None
               /\ item.Is j item.SEMICOLON = false.
Proof.
  intros Hi Hs. destruct names as [| b names]; cbn; eauto.
Qed.

Lemma parseExpr_ident_same fuel prec a i s e :
  lookup precedences (item.Typ i) = None ->
  item.Is i item.SEMICOLON = false ->
  parseExpr (S fuel) prec (stateAt (ident a) (i :: s) e) =
    Some (ast.Identifier a, stateAt (ident a) (i :: s) e).
Proof. intros Hi Hs. rewrite parseExpr_ident by assumption. now rewrite Hs. Qed.

Lemma parseNodeList_loop_idents fuel n : forall names c nodes i s e,
  (List.length names < n)%nat ->
  lookup precedences (item.Typ i) = None ->
  item.Is i item.COMMA = false -> item.Is i item.SEMICOLON = false ->
  parseNodeList_loop (parseExpr (S fuel)) n nodes
      (stateAt c (moreToks names ++ i :: s) e) =
    Some ((nodes ++ map ast.Identifier names)%list,
          stateAt (last (map ident names) c) (i :: s) e).
Proof.
  induction n as [| n IH]; intros names c nodes i s e Hn Hi Hc Hs; [lia |].
  destruct names as [| b names].
  - cbn [moreToks flat_map app map last parseNodeList_loop].
    unfold bind, gets. change (peek (stateAt c (i :: s) e)) with i.
    rewrite Hc, app_nil_r. reflexivity.
  - cbn [List.length] in Hn.
    cbn [moreToks flat_map app parseNodeList_loop]. fold (moreToks names).
    unfold bind at 1. unfold gets at 1.
    change (item.Is (peek (stateAt c (sym item.COMMA :: ident b
                                       :: moreToks names ++ i :: s) e))
                    item.COMMA) with true.
    cbn iota. exec.
    change (next_state (next_state (stateAt c (sym item.COMMA :: ident b
                                                :: moreToks names ++ i :: s) e)))
      with (stateAt (ident b) (moreToks names ++ i :: s) e).
    destruct (moreToks_head names i s Hi Hs) as (j & s' & Ej & Hj & Hjs).
    unfold bind at 1. rewrite Ej, parseExpr_ident_same by assumption.
    rewrite <- Ej, IH by (assumption || lia).
    cbn [map]. rewrite last_cons_default, <- app_assoc. reflexivity.
Qed.

(** The kinds that close a node list: [)] and [[]]. *)
Definition closing (t : item.Type_) : Prop :=
  t = item.RPAREN \/ t = item.RBRACKET.

Lemma parseNodeList_idents fuel n end_ names c s e :
  closing end_ -> (List.length names <= n)%nat ->
  parseNodeList (parseExpr (S fuel)) n end_
      (stateAt c (argToks names ++ sym end_ :: s) e) =
    Some (map ast.Identifier names, stateAt (sym end_) s e).
Proof.
  intros Hend Hn.
  assert (Hp : lookup precedences end_ = None) by (destruct Hend as [-> | ->]; reflexivity).
  assert (Hc : item.Is (sym end_) item.COMMA = false)
    by (destruct Hend as [-> | ->]; reflexivity).
  assert (Hs : item.Is (sym end_) item.SEMICOLON = false)
    by (destruct Hend as [-> | ->]; reflexivity).
  assert (He : item.Is (sym end_) end_ = true) by (now apply item.Is_true_iff).
  unfold parseNodeList. destruct names as [| a names].
  - cbn [argToks app]. unfold bind at 1. unfold gets at 1.
    change (peek (stateAt c (sym end_ :: s) e)) with (sym end_).
    rewrite He. exec. reflexivity.
  - cbn [argToks List.length] in *. rewrite <- app_comm_cons.
    unfold bind at 1. unfold gets at 1.
    change (peek (stateAt c (ident a :: moreToks names ++ sym end_ :: s) e))
      with (ident a).
    assert (Ha : item.Is (ident a) end_ = false)
      by (destruct Hend as [-> | ->]; reflexivity).
    rewrite Ha. exec.
    change (next_state (stateAt c (ident a :: moreToks names ++ sym end_ :: s) e))
      with (stateAt (ident a) (moreToks names ++ sym end_ :: s) e).
    destruct (moreToks_head names (sym end_) s Hp Hs) as (j & s' & Ej & Hj & Hjs).
    unfold bind at 1. rewrite Ej, parseExpr_ident_same by assumption. rewrite <- Ej.
    unfold bind at 1.
    rewrite parseNodeList_loop_idents by (assumption || lia).
    unfold bind at 1. unfold expectPeek, bind at 1, gets at 1.
    change (peek (stateAt (last (map ident names) (ident a)) (sym end_ :: s) e))
      with (sym end_).
    rewrite He. exec. reflexivity.
Qed.

Lemma finish_expression (n : ast.Node) p :
  item.Is (peek p) item.SEMICOLON = false ->
  (pk <- gets peek ;;
   (if item.Is pk item.SEMICOLON then next else ret tt) ;;
   ret n) p = Some (n, p).
Proof. intros H. exec. now rewrite H. Qed.

Lemma parseExpr_call fuel prec f names i s e :
  prec < CALL ->
  lookup precedences (item.Typ i) = None ->
  item.Is i item.SEMICOLON = false ->
  (List.length names <= fuel)%nat ->
  parseExpr (S (S fuel)) prec
      (stateAt (ident f)
               (sym item.LPAREN :: argToks names ++ sym item.RPAREN :: i :: s) e) =
    Some (ast.Call (ast.Identifier f) (map ast.Identifier names),
          stateAt (sym item.RPAREN) (i :: s) e).
Proof.
  intros Hprec Hi His Hn.
  match goal with
  | |- parseExpr _ _ ?p = _ =>
      rewrite (parseExpr_unfold _ _ p parseIdentifier (prefixParsers_IDENT _ _))
  end.
  unfold bind at 1. unfold parseIdentifier at 1. exec.
  change (item.Val (cur (stateAt (ident f)
            (sym item.LPAREN :: argToks names ++ sym item.RPAREN :: i :: s) e)))
    with f.
  unfold bind at 1.
  match goal with
  | |- context [parseExpr_loop _ _ _ _ _ ?p] =>
      rewrite (parseExpr_loop_step _ _ _ _ _ p
                 (parseCall (parseExpr (S fuel)) (S (S fuel))));
        [| reflexivity | exact Hprec | table; reflexivity]
  end.
  change (next_state (stateAt (ident f)
            (sym item.LPAREN :: argToks names ++ sym item.RPAREN :: i :: s) e))
    with (stateAt (sym item.LPAREN) (argToks names ++ sym item.RPAREN :: i :: s) e).
  unfold bind at 1. unfold parseCall at 1. unfold bind at 1.
  rewrite parseNodeList_idents by (first [left; reflexivity | lia]). exec.
  rewrite (parseExpr_loop_unregistered (parseExpr (S fuel)) (S (S fuel)) fuel prec
             _ (stateAt (sym item.RPAREN) (i :: s) e) Hi).
  exec. change (peek (stateAt (sym item.RPAREN) (i :: s) e)) with i.
  now rewrite His.
Qed.

Lemma parseExpr_list fuel prec names i s e :
  lookup precedences (item.Typ i) = None ->
  item.Is i item.SEMICOLON = false ->
  (List.length names <= fuel)%nat ->
  parseExpr (S (S fuel)) prec
      (stateAt (sym item.LBRACKET) (argToks names ++ sym item.RBRACKET :: i :: s) e) =
    Some (ast.List (map ast.Identifier names),
          stateAt (sym item.RBRACKET) (i :: s) e).
Proof.
  intros Hi His Hn.
  match goal with
  | |- parseExpr _ _ ?p = _ =>
      rewrite (parseExpr_unfold _ _ p (parseList (parseExpr (S fuel)) (S (S fuel))));
        [| table; reflexivity]
  end.
  unfold bind at 1. unfold parseList at 1. unfold bind at 1.
  rewrite parseNodeList_idents by (first [right; reflexivity | lia]). exec.
  unfold bind at 1.
  rewrite (parseExpr_loop_unregistered _ _ (S fuel) prec
             _ (stateAt (sym item.RBRACKET) (i :: s) e) Hi).
  exec. change (peek (stateAt (sym item.RBRACKET) (i :: s) e)) with i.
  now rewrite His.
Qed.

Lemma Parse_one_expression fuel c s n last_ :
  item.Is c item.EOF = false -> item.Is c item.RETURN = false ->
  ast.isNil n = false ->
  parseExpr (S fuel) LOWEST (stateAt c (s ++ [sym item.EOF]) []) =
    Some (n, stateAt last_ [sym item.EOF] []) ->
  Parse (S (S fuel)) (c :: s ++ [sym item.EOF]) = Some (ast.Block [n], []).
Proof.
  intros Hc Hr Hn E.
  assert (E' : parseExpr (S (S fuel)) LOWEST (stateAt c (s ++ [sym item.EOF]) []) =
               Some (n, stateAt last_ [sym item.EOF] []))
    by (apply (parseExpr_mono (S fuel) (S (S fuel)) LOWEST ltac:(lia) _ _ E)).
  unfold Parse, parse. unfold bind at 1.
  change (newParser (c :: s ++ [sym item.EOF]))
    with (stateAt c (s ++ [sym item.EOF]) []).
  rewrite (parse_loop_step _ _ _ (stateAt c (s ++ [sym item.EOF]) []) n
             (stateAt last_ [sym item.EOF] []) Hc);
    [| now rewrite parseStatement_not_return].
  rewrite next_stateAt, parse_loop_stop by reflexivity.
  unfold addStatement. rewrite Hn. reflexivity.
Qed.

(** X12.  The arguments of a call and the elements of a list literal are
    read in order, however many there are: [f(a1, ..., an)] parses to the
    call of [f] on the [n] arguments and [[a1, ..., an]] to the list of
    the [n] elements, the empty lists included, without error. *)
Theorem arguments_and_elements_in_order f names fuel :
  (List.length names + 3 <= fuel)%nat ->
  Parse fuel (ident f :: sym item.LPAREN :: argToks names
              ++ [sym item.RPAREN; sym item.EOF]) =
    Some (ast.Block [ast.Call (ast.Identifier f) (map ast.Identifier names)], [])
  /\ Parse fuel (sym item.LBRACKET :: argToks names
                 ++ [sym item.RBRACKET; sym item.EOF]) =
    Some (ast.Block [ast.List (map ast.Identifier names)], []).
Proof.
  intros Hf.
  destruct fuel as [| [| [| fuel]]]; try lia.
  assert (Hn : (List.length names <= fuel)%nat) by lia.
  split.
  - apply Parse_mono with (S (S (S (List.length names)))); [lia |].
    replace (argToks names ++ [sym item.RPAREN; sym item.EOF])%list
      with ((argToks names ++ [sym item.RPAREN]) ++ [sym item.EOF])%list
      by (now rewrite <- app_assoc).
    apply (Parse_one_expression _ (ident f)
             (sym item.LPAREN :: argToks names ++ [sym item.RPAREN])
             _ (sym item.RPAREN)); try reflexivity.
    rewrite <- app_comm_cons, <- app_assoc. cbn [app].
    apply parseExpr_call; try reflexivity; lia.
  - apply Parse_mono with (S (S (S (List.length names)))); [lia |].
    replace (argToks names ++ [sym item.RBRACKET; sym item.EOF])%list
      with ((argToks names ++ [sym item.RBRACKET]) ++ [sym item.EOF])%list
      by (now rewrite <- app_assoc).
    apply (Parse_one_expression _ (sym item.LBRACKET)
             (argToks names ++ [sym item.RBRACKET])
             _ (sym item.RBRACKET)); try reflexivity.
    rewrite <- app_assoc. cbn [app].
    apply parseExpr_list; try reflexivity; lia.
Qed.

(** The tokens [, i1 , i2 ...] of further parameters, whatever the
    tokens [i1], [i2], ... are. *)
Definition paramToks (ps : list item.Item) : list item.Item :=
  flat_map (fun i : item.Item => [sym item.COMMA; i]) ps.

Lemma parseFunctionParams_loop_any n : forall ps c acc j s e,
  (List.length ps < n)%nat ->
  item.Is j item.COMMA = false ->
  parseFunctionParams_loop n acc (stateAt c (paramToks ps ++ j :: s) e) =
    Some ((acc ++ map item.Val ps)%list, stateAt (last ps c) (j :: s) e).
Proof.
  induction n as [| n IH]; intros ps c acc j s e Hn Hj; [lia |].
  destruct ps as [| i ps].
  - cbn [paramToks flat_map app map last parseFunctionParams_loop].
    unfold bind, gets. change (peek (stateAt c (j :: s) e)) with j.
    rewrite Hj, app_nil_r. reflexivity.
  - cbn [List.length] in Hn.
    cbn [paramToks flat_map app parseFunctionParams_loop]. fold (paramToks ps).
    unfold bind at 1. unfold gets at 1.
    change (item.Is (peek (stateAt c (sym item.COMMA :: i
                                       :: paramToks ps ++ j :: s) e))
                    item.COMMA) with true.
    cbn iota. exec.
    change (next_state (next_state (stateAt c (sym item.COMMA :: i
                                                :: paramToks ps ++ j :: s) e)))
      with (stateAt i (paramToks ps ++ j :: s) e).
    change (cur (stateAt i (paramToks ps ++ j :: s) e)) with i.
    rewrite IH by (assumption || lia).
    cbn [map]. rewrite last_cons_default, <- app_assoc. reflexivity.
Qed.

Lemma parseFunctionParams_any n i1 ps c s e :
  item.Is i1 item.RPAREN = false ->
  (List.length ps < n)%nat ->
  parseFunctionParams n
      (stateAt c (i1 :: paramToks ps ++ sym item.RPAREN :: s) e) =
    Some (item.Val i1 :: map item.Val ps, stateAt (sym item.RPAREN) s e).
Proof.
  intros H1 Hn. unfold parseFunctionParams.
  unfold bind at 1. unfold gets at 1.
  change (peek (stateAt c (i1 :: paramToks ps ++ sym item.RPAREN :: s) e)) with i1.
  rewrite H1. exec.
  change (next_state (stateAt c (i1 :: paramToks ps ++ sym item.RPAREN :: s) e))
    with (stateAt i1 (paramToks ps ++ sym item.RPAREN :: s) e).
  change (cur (stateAt i1 (paramToks ps ++ sym item.RPAREN :: s) e)) with i1.
  unfold bind at 1.
  rewrite parseFunctionParams_loop_any by (reflexivity || lia).
  unfold bind at 1. unfold expectPeek, bind at 1, gets at 1.
  change (item.Is (peek (stateAt (last ps i1) (sym item.RPAREN :: s) e))
                  item.RPAREN) with true.
  cbn iota. exec. reflexivity.
Qed.

Lemma parseBlock_empty rec fuel c t e :
  parseBlock rec (S fuel) (stateAt c (sym item.RBRACE :: t) e) =
    Some (ast.Block [], stateAt (sym item.RBRACE) t e).
Proof. reflexivity. Qed.

Lemma parseExpr_function fuel prec i1 ps j s e :
  item.Is i1 item.RPAREN = false ->
  lookup precedences (item.Typ j) = None ->
  item.Is j item.SEMICOLON = false ->
  (List.length ps <= fuel)%nat ->
  parseExpr (S fuel) prec
      (stateAt (sym item.FUNCTION)
         (sym item.LPAREN :: i1 :: paramToks ps
          ++ sym item.RPAREN :: sym item.LBRACE :: sym item.RBRACE :: j :: s) e) =
    Some (ast.Function (item.Val i1 :: map item.Val ps) (ast.Block []),
          stateAt (sym item.RBRACE) (j :: s) e).
Proof.
  intros H1 Hj Hjs Hn.
  match goal with
  | |- parseExpr _ _ ?p = _ =>
      rewrite (parseExpr_unfold _ _ p (parseFunction (parseExpr fuel) (S fuel)));
        [| table; reflexivity]
  end.
  unfold bind at 1. unfold parseFunction at 1.
  unfold bind at 1. unfold expectPeek at 1. exec.
  match goal with
  | |- context [item.Is (peek ?p) item.LPAREN] =>
      change (item.Is (peek p) item.LPAREN) with true
  end.
  cbn iota. exec.
  match goal with
  | |- context [next_state (stateAt ?c (?x :: ?r) ?e')] =>
      change (next_state (stateAt c (x :: r) e')) with (stateAt x r e')
  end.
  unfold bind at 1.
  rewrite parseFunctionParams_any by (assumption || lia).
  unfold bind at 1. unfold expectPeek at 1. exec.
  change (item.Is (peek (stateAt (sym item.RPAREN)
                           (sym item.LBRACE :: sym item.RBRACE :: j :: s) e))
                  item.LBRACE) with true.
  cbn iota. exec.
  change (next_state (stateAt (sym item.RPAREN)
                        (sym item.LBRACE :: sym item.RBRACE :: j :: s) e))
    with (stateAt (sym item.LBRACE) (sym item.RBRACE :: j :: s) e).
  unfold bind at 1. rewrite parseBlock_empty. exec.
  unfold bind at 1.
  rewrite (parseExpr_loop_unregistered _ _ fuel prec
             _ (stateAt (sym item.RBRACE) (j :: s) e) Hj).
  exec. change (peek (stateAt (sym item.RBRACE) (j :: s) e)) with j.
  now rewrite Hjs.
Qed.

(** X13.  [parseFunctionParams] does not check what it reads: the text of
    whatever token stands in a parameter position becomes a parameter
    name, in order and without error, however many parameters there are;
    only a first token [)] means no parameter. *)
Theorem function_parameters_unchecked i1 ps fuel :
  item.Typ i1 <> item.RPAREN ->
  (List.length ps + 2 <= fuel)%nat ->
  Parse fuel (sym item.FUNCTION :: sym item.LPAREN :: i1 :: paramToks ps
              ++ [sym item.RPAREN; sym item.LBRACE; sym item.RBRACE;
                  sym item.EOF]) =
    Some (ast.Block [ast.Function (item.Val i1 :: map item.Val ps) (ast.Block [])],
          [])
  /\ Parse fuel [sym item.FUNCTION; sym item.LPAREN; sym item.RPAREN;
                 sym item.LBRACE; sym item.RBRACE; sym item.EOF] =
    Some (ast.Block [ast.Function [] (ast.Block [])], []).
Proof.
  intros H1 Hf. apply item.Is_false_iff in H1. split.
  - apply Parse_mono with (S (S (List.length ps))); [lia |].
    replace (paramToks ps ++ [sym item.RPAREN; sym item.LBRACE; sym item.RBRACE;
                              sym item.EOF])%list
      with ((paramToks ps ++ [sym item.RPAREN; sym item.LBRACE; sym item.RBRACE])
            ++ [sym item.EOF])%list
      by (now rewrite <- app_assoc).
    apply (Parse_one_expression _ (sym item.FUNCTION)
             (sym item.LPAREN :: i1 :: paramToks ps
              ++ [sym item.RPAREN; sym item.LBRACE; sym item.RBRACE])
             _ (sym item.RBRACE)); try reflexivity.
    rewrite <- !app_comm_cons, <- app_assoc. cbn [app].
    apply parseExpr_function; try reflexivity; try assumption; lia.
  - apply Parse_mono with 2%nat; [lia |]. vm_compute. reflexivity.
Qed.

Lemma parseReturn_shape rec p r p' :
  parseReturn rec p = Some (r, p') -> exists e, r = ast.Return e.
Proof.
  unfold parseReturn, bind. cbn [next modify].
  destruct (rec LOWEST (next_state p)) as [[e q] |]; [| discriminate].
  cbn [gets]. destruct (item.Is (peek q) item.SEMICOLON); cbn;
    intros [= <- _]; eauto.
Qed.

(** X14.  A [return] at the start of a statement always yields a Return
    node in the Block, also when no expression could be parsed after it:
    the node then holds nil and the error list is not empty, as in
    [return] followed by [EOF]. *)
Theorem return_statement_kept i rest fuel :
  item.Typ i = item.RETURN ->
  (3 * List.length (i :: rest) < fuel)%nat ->
  (exists e stmts errs_,
     Parse fuel (i :: rest) = Some (ast.Block (ast.Return e :: stmts), errs_))
  /\ Parse fuel [i; sym item.EOF] =
       Some (ast.Block [ast.Return ast.Nil], [noPrefixMsg item.EOF]).
Proof.
  intros Hi Hf. split.
  - destruct (Parse_spec fuel (i :: rest) Hf) as (stmts & p' & E & Hs & _).
    inversion Hs as [p0 Heof | p0 s0 p1 l p2 Hne Hstmt Hrest]; subst.
    + apply item.Is_true_iff in Heof. cbn in Heof. congruence.
    + unfold parseStatement, bind, gets in Hstmt.
      assert (Hr : item.Is (cur (newParser (i :: rest))) item.RETURN = true)
        by (now apply item.Is_true_iff).
      rewrite Hr in Hstmt.
      destruct (parseReturn_shape _ _ _ _ Hstmt) as [e ->].
      exists e, l, (errs p'). exact E.
  - apply Parse_mono with 2%nat; [cbn [List.length] in Hf; lia |].
    destruct i as [t v]. cbn in Hi. subst t. vm_compute. reflexivity.
Qed.

Lemma Parse_one_statement fuel c s n p1 :
  item.Is c item.EOF = false -> item.Is c item.RETURN = false ->
  ast.isNil n = false ->
  parseExpr (S fuel) LOWEST (stateAt c s []) = Some (n, p1) ->
  item.Is (cur (next_state p1)) item.EOF = true ->
  Parse (S (S fuel)) (c :: s) = Some (ast.Block [n], errs p1).
Proof.
  intros Hc Hr Hn E Hstop.
  assert (E' : parseExpr (S (S fuel)) LOWEST (stateAt c s []) = Some (n, p1))
    by (apply (parseExpr_mono (S fuel) (S (S fuel)) LOWEST ltac:(lia) _ _ E)).
  unfold Parse, parse. unfold bind at 1.
  change (newParser (c :: s)) with (stateAt c s []).
  rewrite (parse_loop_step _ _ _ (stateAt c s []) n p1 Hc);
    [| now rewrite parseStatement_not_return].
  rewrite parse_loop_stop by assumption.
  unfold addStatement. rewrite Hn. reflexivity.
Qed.

(** A token that ends a block: [}] or [EOF]. *)
Definition blockEnd (j : item.Item) : Prop :=
  item.Typ j = item.RBRACE \/ item.Typ j = item.EOF.

Lemma blockEnd_facts j :
  blockEnd j ->
  lookup precedences (item.Typ j) = None
  /\ item.Is j item.SEMICOLON = false
  /\ negb (item.Is j item.RBRACE) && negb (item.Is j item.EOF) = false.
Proof.
  unfold item.Is. intros [-> | ->]; repeat split; reflexivity.
Qed.

Lemma stmtToks_head_before l j s :
  lookup precedences (item.Typ j) = None ->
  item.Is j item.SEMICOLON = false ->
  exists i s', (stmtToks l ++ j :: s)%list = i :: s'
               /\ lookup precedences (item.Typ i) = None
               /\ item.Is i item.SEMICOLON = false.
Proof.
  intros Hj Hs. destruct l as [| [a semi] l']; cbn; eauto.
Qed.

Lemma parseBlock_loop_statements fuel n : forall l block j s e,
  (List.length l < n)%nat -> blockEnd j ->
  parseBlock_loop (parseExpr (S fuel)) n block (stateOf (stmtToks l ++ j :: s) e) =
    Some ((block ++ map (fun x : string * bool => ast.Identifier (fst x)) l)%list,
          stateAt j s e).
Proof.
  induction n as [| n IH]; intros l block j s e Hn Hj; [lia |].
  destruct (blockEnd_facts j Hj) as (Hp & Hsemi & Hstop).
  destruct l as [| [a semi] l'].
  - cbn [stmtToks flat_map app stateOf map parseBlock_loop].
    unfold bind, gets. change (cur (stateAt j s e)) with j.
    rewrite Hstop, app_nil_r. reflexivity.
  - cbn [List.length] in Hn.
    destruct (stmtToks_head_before l' j s Hp Hsemi) as (i & s' & Es & Hi & His).
    cbn [stmtToks flat_map fst snd]. fold (stmtToks l').
    rewrite <- !app_assoc, <- app_comm_cons. cbn [stateOf parseBlock_loop].
    unfold bind at 1. unfold gets at 1.
    match goal with
    | |- context [cur (stateAt (ident a) ?r e)] =>
        change (cur (stateAt (ident a) r e)) with (ident a)
    end.
    change (negb (item.Is (ident a) item.RBRACE)
            && negb (item.Is (ident a) item.EOF)) with true.
    cbn iota. unfold bind at 1.
    rewrite parseStatement_not_return by reflexivity.
    destruct semi; cbn [app].
    + rewrite parseExpr_ident by reflexivity.
      change (item.Is (sym item.SEMICOLON) item.SEMICOLON) with true. cbn iota.
      exec. rewrite next_stateAt, IH by (assumption || lia).
      cbn [map fst addStatement ast.isNil]. now rewrite <- app_assoc.
    + rewrite Es, parseExpr_ident_same by assumption.
      exec. rewrite next_stateAt, <- Es, IH by (assumption || lia).
      cbn [map fst addStatement ast.isNil]. now rewrite <- app_assoc.
Qed.

Lemma parseBlock_statements fuel n l c j s e :
  (List.length l < n)%nat -> blockEnd j ->
  parseBlock (parseExpr (S fuel)) n (stateAt c (stmtToks l ++ j :: s) e) =
    Some (ast.Block (map (fun x : string * bool => ast.Identifier (fst x)) l),
          stateAt j s e).
Proof.
  intros Hn Hj. unfold parseBlock. exec. rewrite next_stateAt.
  unfold bind at 1. now rewrite parseBlock_loop_statements.
Qed.

(** [if c { a1 a2 ... ] up to the token [j] that ends the block, when no
    [else] follows. *)
Lemma parseExpr_if fuel prec c l j s e :
  blockEnd j ->
  item.Is (fst (recv s)) item.ELSE = false ->
  lookup precedences (item.Typ (fst (recv s))) = None ->
  item.Is (fst (recv s)) item.SEMICOLON = false ->
  (List.length l <= fuel)%nat ->
  parseExpr (S (S fuel)) prec
      (stateAt (sym item.IF) (ident c :: sym item.LBRACE :: stmtToks l ++ j :: s) e) =
    Some (ast.IfExpr (ast.Identifier c)
            (ast.Block (map (fun x : string * bool => ast.Identifier (fst x)) l))
            ast.Nil,
          stateAt j s e).
Proof.
  intros Hj Helse Hp Hsemi Hn.
  match goal with
  | |- parseExpr _ _ ?p = _ =>
      rewrite (parseExpr_unfold _ _ p
                 (parseIfExpr (parseExpr (S fuel)) (S (S fuel))));
        [| table; reflexivity]
  end.
  unfold bind at 1. unfold parseIfExpr at 1. cbn [parseIfExpr_rec]. exec.
  match goal with
  | |- context [next_state (stateAt ?c0 (?x :: ?r) ?e')] =>
      change (next_state (stateAt c0 (x :: r) e')) with (stateAt x r e')
  end.
  unfold bind at 1. rewrite parseExpr_ident_same by reflexivity.
  unfold bind at 1. unfold expectPeek at 1. exec.
  match goal with
  | |- context [item.Is (peek ?p) item.LBRACE] =>
      change (item.Is (peek p) item.LBRACE) with true
  end.
  cbn iota. exec.
  match goal with
  | |- context [next_state (stateAt ?c0 (?x :: ?r) ?e')] =>
      change (next_state (stateAt c0 (x :: r) e')) with (stateAt x r e')
  end.
  unfold bind at 1. rewrite parseBlock_statements by (assumption || lia).
  exec. change (peek (stateAt j s e)) with (fst (recv s)).
  rewrite Helse. exec.
  unfold bind at 1.
  rewrite (parseExpr_loop_unregistered _ _ (S fuel) prec _ (stateAt j s e) Hp).
  exec. change (peek (stateAt j s e)) with (fst (recv s)).
  now rewrite Hsemi.
Qed.

(** X15.  A block ends at [}] or at the end of the input alike: an
    [if c { a1 a2 ...] whose block is never closed parses to the same
    tree as the closed one, and no error is recorded for the missing
    [}]. *)
Theorem unclosed_block_accepted c l fuel :
  (List.length l + 3 <= fuel)%nat ->
  Parse fuel (sym item.IF :: ident c :: sym item.LBRACE :: stmtToks l
              ++ [sym item.RBRACE; sym item.EOF]) =
    Some (ast.Block
            [ast.IfExpr (ast.Identifier c)
               (ast.Block (map (fun x : string * bool => ast.Identifier (fst x)) l))
               ast.Nil], [])
  /\ Parse fuel (sym item.IF :: ident c :: sym item.LBRACE :: stmtToks l
                 ++ [sym item.EOF]) =
    Some (ast.Block
            [ast.IfExpr (ast.Identifier c)
               (ast.Block (map (fun x : string * bool => ast.Identifier (fst x)) l))
               ast.Nil], []).
Proof.
  intros Hf. split.
  - apply Parse_mono with (S (S (S (List.length l)))); [lia |].
    apply (Parse_one_statement _ (sym item.IF) _ _
             (stateAt (sym item.RBRACE) [sym item.EOF] []));
      try reflexivity.
    apply parseExpr_if; try reflexivity; try lia. left; reflexivity.
  - apply Parse_mono with (S (S (S (List.length l)))); [lia |].
    apply (Parse_one_statement _ (sym item.IF) _ _
             (stateAt (sym item.EOF) [] []));
      try reflexivity.
    apply parseExpr_if; try reflexivity; try lia. right; reflexivity.
Qed.

(** The tokens of [else if c {}] repeated, and the tree of the chain
    [if c {} else if c1 {} else if c2 {} ...]. *)
Definition chainToks (cs : list string) : list item.Item :=
  flat_map (fun c : string =>
              [sym item.ELSE; sym item.IF; ident c; sym item.LBRACE;
               sym item.RBRACE]) cs.

Fixpoint ifChain (c : string) (cs : list string) : ast.Node :=
  ast.IfExpr (ast.Identifier c) (ast.Block [])
    match cs with
    | [] => ast.Nil
    | c' :: cs' => ifChain c' cs'
    end.

Lemma parseIfExpr_rec_chain fuel bfuel n : forall cs c j s e,
  (List.length cs < n)%nat ->
  item.Is j item.ELSE = false ->
  parseIfExpr_rec (parseExpr (S fuel)) (S bfuel) n
      (stateAt (sym item.IF)
         (ident c :: sym item.LBRACE :: sym item.RBRACE :: chainToks cs ++ j :: s) e) =
    Some (ifChain c cs, stateAt (sym item.RBRACE) (j :: s) e).
Proof.
  induction n as [| n IH]; intros cs c j s e Hn Hj; [lia |].
  cbn [parseIfExpr_rec]. exec.
  match goal with
  | |- context [next_state (stateAt ?c0 (?x :: ?r) ?e')] =>
      change (next_state (stateAt c0 (x :: r) e')) with (stateAt x r e')
  end.
  unfold bind at 1. rewrite parseExpr_ident_same by reflexivity.
  unfold bind at 1. unfold expectPeek at 1. exec.
  match goal with
  | |- context [item.Is (peek ?p) item.LBRACE] =>
      change (item.Is (peek p) item.LBRACE) with true
  end.
  cbn iota. exec.
  match goal with
  | |- context [next_state (stateAt ?c0 (?x :: ?r) ?e')] =>
      change (next_state (stateAt c0 (x :: r) e')) with (stateAt x r e')
  end.
  unfold bind at 1. rewrite parseBlock_empty. exec.
  destruct cs as [| c' cs].
  - cbn [chainToks flat_map app ifChain].
    change (peek (stateAt (sym item.RBRACE) (j :: s) e)) with j.
    rewrite Hj. reflexivity.
  - cbn [List.length] in Hn. cbn [chainToks flat_map app ifChain].
    fold (chainToks cs).
    match goal with
    | |- context [item.Is (peek ?p) item.ELSE] =>
        change (item.Is (peek p) item.ELSE) with true
    end.
    cbn iota. exec.
    match goal with
    | |- context [next_state (stateAt ?c0 (?x :: ?r) ?e')] =>
        change (next_state (stateAt c0 (x :: r) e')) with (stateAt x r e')
    end.
    match goal with
    | |- context [item.Is (peek ?p) item.IF] =>
        change (item.Is (peek p) item.IF) with true
    end.
    cbn iota. exec.
    match goal with
    | |- context [next_state (stateAt ?c0 (?x :: ?r) ?e')] =>
        change (next_state (stateAt c0 (x :: r) e')) with (stateAt x r e')
    end.
    unfold bind at 1. rewrite IH by (assumption || lia). reflexivity.
Qed.

(** X16.  [else if] is parsed by recursion into the if-parser, not by a
    rewriting into blocks: a chain [if c {} else if c1 {} ... else if cn {}]
    of any length parses to if nodes nested in the else slot, the last one
    with a nil else slot, without error. *)
Theorem else_if_chain c cs fuel :
  (List.length cs + 3 <= fuel)%nat ->
  Parse fuel (sym item.IF :: ident c :: sym item.LBRACE :: sym item.RBRACE
              :: chainToks cs ++ [sym item.EOF]) =
    Some (ast.Block [ifChain c cs], []).
Proof.
  intros Hf. apply Parse_mono with (S (S (S (List.length cs)))); [lia |].
  apply (Parse_one_statement _ (sym item.IF) _ _
           (stateAt (sym item.RBRACE) [sym item.EOF] []));
    try reflexivity; [destruct cs; reflexivity |].
  match goal with
  | |- parseExpr _ _ ?p = _ =>
      rewrite (parseExpr_unfold _ _ p
                 (parseIfExpr (parseExpr (S (List.length cs)))
                              (S (S (List.length cs)))));
        [| table; reflexivity]
  end.
  unfold bind at 1. unfold parseIfExpr at 1.
  rewrite parseIfExpr_rec_chain by (reflexivity || lia).
  unfold bind at 1.
  rewrite (parseExpr_loop_unregistered _ _ (S (List.length cs)) LOWEST _
             (stateAt (sym item.RBRACE) [sym item.EOF] []) eq_refl).
  reflexivity.
Qed.

(* ------------------------------------------------------------------ *)
(** ** Further properties: literals, and parsing then evaluating *)

Lemma parseExpr_atom fuel prec p g n p1 :
  lookup (prefixParsers (parseExpr fuel) (S fuel)) (item.Typ (cur p)) = Some g ->
  g p = Some (n, p1) ->
  lookup precedences (item.Typ (peek p1)) = None ->
  item.Is (peek p1) item.SEMICOLON = false ->
  parseExpr (S fuel) prec p = Some (n, p1).
Proof.
  intros Hg E Hp Hs. rewrite (parseExpr_unfold _ _ p g Hg).
  unfold bind at 1. rewrite E. unfold bind at 1.
  rewrite (parseExpr_loop_unregistered _ _ _ _ _ p1 Hp).
  now apply finish_expression.
Qed.

Lemma Parse_one_any fuel c s n p1 :
  item.Is c item.EOF = false -> item.Is c item.RETURN = false ->
  parseExpr (S fuel) LOWEST (stateAt c s []) = Some (n, p1) ->
  item.Is (cur (next_state p1)) item.EOF = true ->
  Parse (S (S fuel)) (c :: s) = Some (ast.Block (addStatement [] n), errs p1).
Proof.
  intros Hc Hr E Hstop.
  assert (E' : parseExpr (S (S fuel)) LOWEST (stateAt c s []) = Some (n, p1))
    by (apply (parseExpr_mono (S fuel) (S (S fuel)) LOWEST ltac:(lia) _ _ E)).
  unfold Parse, parse. unfold bind at 1.
  change (newParser (c :: s)) with (stateAt c s []).
  rewrite (parse_loop_step _ _ _ (stateAt c s []) n p1 Hc);
    [| now rewrite parseStatement_not_return].
  rewrite parse_loop_stop by assumption. reflexivity.
Qed.

Lemma prefixParsers_INT rec fuel :
  lookup (prefixParsers rec fuel) item.INT = Some parseInteger.
Proof. table. reflexivity. Qed.

Lemma prefixParsers_FLOAT rec fuel :
  lookup (prefixParsers rec fuel) item.FLOAT = Some parseFloat.
Proof. table. reflexivity. Qed.

Lemma parseInteger_stateAt v s e :
  parseInteger (stateAt (item.mkItem item.INT v) s e) =
    Some match ParseInt v with
         | Some z => (ast.Integer z, stateAt (item.mkItem item.INT v) s e)
         | None =>
             (ast.Nil,
              stateAt (item.mkItem item.INT v) s
                (e ++ ["unable to parse " ++ Quote v ++ " as integer"]))
         end.
Proof.
  unfold parseInteger. exec.
  change (item.Val (cur (stateAt (item.mkItem item.INT v) s e))) with v.
  destruct (ParseInt v); reflexivity.
Qed.

Lemma parseFloat_stateAt v s e :
  parseFloat (stateAt (item.mkItem item.FLOAT v) s e) =
    Some match ParseFloat v with
         | Some x => (ast.Float x, stateAt (item.mkItem item.FLOAT v) s e)
         | None =>
             (ast.Nil,
              stateAt (item.mkItem item.FLOAT v) s
                (e ++ ["unable to parse " ++ Quote v ++ " as float"]))
         end.
Proof.
  unfold parseFloat. exec.
  change (item.Val (cur (stateAt (item.mkItem item.FLOAT v) s e))) with v.
  destruct (ParseFloat v); reflexivity.
Qed.

(** X17.  A literal token parses to its node: an integer or float token
    to the number [strconv] reads from its text, and when [strconv]
    rejects the text no statement is added and the error "unable to parse
    ... as integer" (or float) is recorded; a string token to its text; a
    [true] or [false] token to the Boolean that tells whether its kind is
    [true]. *)
Theorem literal_tokens v fuel :
  (2 <= fuel)%nat ->
  Parse fuel [item.mkItem item.INT v; sym item.EOF] =
    Some match ParseInt v with
         | Some z => (ast.Block [ast.Integer z], [])
         | None => (ast.Block [],
                    ["unable to parse " ++ Quote v ++ " as integer"])
         end
  /\ Parse fuel [item.mkItem item.FLOAT v; sym item.EOF] =
    Some match ParseFloat v with
         | Some x => (ast.Block [ast.Float x], [])
         | None => (ast.Block [],
                    ["unable to parse " ++ Quote v ++ " as float"])
         end
  /\ Parse fuel [item.mkItem item.STRING v; sym item.EOF] =
    Some (ast.Block [ast.String v], [])
  /\ Parse fuel [item.mkItem item.TRUE v; sym item.EOF] =
    Some (ast.Block [ast.Boolean true], [])
  /\ Parse fuel [item.mkItem item.FALSE v; sym item.EOF] =
    Some (ast.Block [ast.Boolean false], []).
Proof.
  intros Hf.
  repeat apply conj; (apply Parse_mono with 2%nat; [assumption |]).
  - assert (E := parseInteger_stateAt v [sym item.EOF] []).
    destruct (ParseInt v) as [z |].
    + apply (Parse_one_any 0 (item.mkItem item.INT v) [sym item.EOF]
               (ast.Integer z) (stateAt (item.mkItem item.INT v) [sym item.EOF] []));
        try reflexivity.
      now apply (parseExpr_atom 0 LOWEST _ parseInteger);
        [apply prefixParsers_INT | | |].
    + apply (Parse_one_any 0 (item.mkItem item.INT v) [sym item.EOF] ast.Nil
               (stateAt (item.mkItem item.INT v) [sym item.EOF]
                  ([] ++ ["unable to parse " ++ Quote v ++ " as integer"])));
        try reflexivity.
      now apply (parseExpr_atom 0 LOWEST _ parseInteger);
        [apply prefixParsers_INT | | |].
  - assert (E := parseFloat_stateAt v [sym item.EOF] []).
    destruct (ParseFloat v) as [x |].
    + apply (Parse_one_any 0 (item.mkItem item.FLOAT v) [sym item.EOF]
               (ast.Float x) (stateAt (item.mkItem item.FLOAT v) [sym item.EOF] []));
        try reflexivity.
      now apply (parseExpr_atom 0 LOWEST _ parseFloat);
        [apply prefixParsers_FLOAT | | |].
    + apply (Parse_one_any 0 (item.mkItem item.FLOAT v) [sym item.EOF] ast.Nil
               (stateAt (item.mkItem item.FLOAT v) [sym item.EOF]
                  ([] ++ ["unable to parse " ++ Quote v ++ " as float"])));
        try reflexivity.
      now apply (parseExpr_atom 0 LOWEST _ parseFloat);
        [apply prefixParsers_FLOAT | | |].
  - vm_compute. reflexivity.
  - vm_compute. reflexivity.
  - vm_compute. reflexivity.
Qed.

Lemma parseExpr_loop_lower rec fuel n prec leftExp p :
  precedenceOf (item.Typ (peek p)) <= prec ->
  parseExpr_loop rec fuel (S n) prec leftExp p = Some (leftExp, p).
Proof.
  intros H. cbn [parseExpr_loop]. exec.
  fold (precedenceOf (item.Typ (peek p))).
  apply Z.ltb_ge in H. rewrite H, andb_false_r. reflexivity.
Qed.

Lemma parseExpr_loop_binary rec fuel n prec lhs c op rest e New r p2 :
  binaryNode (item.Typ op) = Some New ->
  prec < precedenceOf (item.Typ op) ->
  rec (precedenceOf (item.Typ op)) (stateOf rest e) = Some (r, p2) ->
  parseExpr_loop rec fuel (S n) prec lhs (stateAt c (op :: rest) e) =
    parseExpr_loop rec fuel n prec (New lhs r) p2.
Proof.
  intros HN Hp E.
  rewrite (parseExpr_loop_step rec fuel n prec lhs
             (stateAt c (op :: rest) e) (parseBinary rec New)).
  - change (next_state (stateAt c (op :: rest) e)) with (stateAt op rest e).
    unfold bind at 1. unfold parseBinary at 1.
    unfold bind at 1. unfold precedence at 1, gets at 1.
    change (item.Typ (cur (stateAt op rest e))) with (item.Typ op).
    fold (precedenceOf (item.Typ op)).
    unfold bind at 1. unfold next at 1, modify at 1.
    rewrite next_stateAt. unfold bind at 1. rewrite E. reflexivity.
  - change (peek (stateAt c (op :: rest) e)) with op.
    destruct op as [t v]. cbn [item.Typ] in HN.
    destruct t; try discriminate HN; reflexivity.
  - exact Hp.
  - change (item.Typ (peek (stateAt c (op :: rest) e))) with (item.Typ op).
    destruct op as [t v]. cbn [item.Typ] in HN |- *.
    binary_cases HN; table; reflexivity.
Qed.

Lemma parseExpr_int fuel prec v z s e :
  ParseInt v = Some z ->
  parseExpr (S fuel) prec (stateAt (item.mkItem item.INT v) s e) =
    (leftExp <- parseExpr_loop (parseExpr fuel) (S fuel) (S fuel) prec (ast.Integer z) ;;
     pk <- gets peek ;;
     (if item.Is pk item.SEMICOLON then next else ret tt) ;;
     ret leftExp) (stateAt (item.mkItem item.INT v) s e).
Proof.
  intros Hz.
  rewrite (parseExpr_unfold fuel prec (stateAt (item.mkItem item.INT v) s e)
             parseInteger (prefixParsers_INT _ _)).
  unfold bind at 1. rewrite parseInteger_stateAt, Hz. reflexivity.
Qed.

(** X18.  Parsing and evaluation compose as arithmetic expects: with
    integer literals evaluating to their values, the source [a < b * c]
    parses to one statement whose evaluation is the Boolean
    [a < int64 (b * c)], and [a * b < c] to one whose evaluation is
    [int64 (a * b) < c]; the environment is returned unchanged. *)
Theorem product_compared_after_multiplying
    (Env : Type) (fmtO : obj.Object -> string) (fmtT : obj.Type_ -> string)
    (EvalOther : ast.Node -> Env -> option (obj.Object * Env))
    (sa sb sc : string) (a b c : Z) (env : Env) (fuel : nat) :
  (forall v e, EvalOther (ast.Integer v) e = Some (obj.Integer v, e)) ->
  ParseInt sa = Some a -> ParseInt sb = Some b -> ParseInt sc = Some c ->
  (4 <= fuel)%nat ->
  (exists n,
     Parse fuel [item.mkItem item.INT sa; sym item.LT; item.mkItem item.INT sb;
                 sym item.ASTERISK; item.mkItem item.INT sc; sym item.EOF] =
       Some (ast.Block [n], [])
     /\ ast.Node_Eval Env fmtO fmtT EvalOther n env =
          Some (obj.ParseBool (a <? int64 (b * c)), env))
  /\ (exists n,
     Parse fuel [item.mkItem item.INT sa; sym item.ASTERISK; item.mkItem item.INT sb;
                 sym item.LT; item.mkItem item.INT sc; sym item.EOF] =
       Some (ast.Block [n], [])
     /\ ast.Node_Eval Env fmtO fmtT EvalOther n env =
          Some (obj.ParseBool (int64 (a * b) <? c), env)).
Proof.
  intros Hlit Ha Hb Hc Hf.
  assert (Ec : forall prec,
             parseExpr 1 prec (stateAt (item.mkItem item.INT sc) [sym item.EOF] []) =
               Some (ast.Integer c,
                     stateAt (item.mkItem item.INT sc) [sym item.EOF] [])).
  { intros prec.
    apply (parseExpr_atom 0 prec _ parseInteger);
      [apply prefixParsers_INT | now rewrite parseInteger_stateAt, Hc | | ];
      reflexivity. }
  split.
  - exists (ast.Less (ast.Integer a) (ast.Times (ast.Integer b) (ast.Integer c))).
    split.
    + apply Parse_mono with 4%nat; [assumption |].
      apply (Parse_one_statement 2 _ _ _
               (stateAt (item.mkItem item.INT sc) [sym item.EOF] []));
        try reflexivity.
      rewrite (parseExpr_int _ _ _ _ _ _ Ha). unfold bind at 1.
      rewrite (parseExpr_loop_binary _ _ _ _ _ _ (sym item.LT) _ _ ast.NewLess
                 (ast.Times (ast.Integer b) (ast.Integer c))
                 (stateAt (item.mkItem item.INT sc) [sym item.EOF] []));
        [| reflexivity | reflexivity |].
      * rewrite parseExpr_loop_unregistered by reflexivity. reflexivity.
      * cbn [stateOf]. rewrite (parseExpr_int _ _ _ _ _ _ Hb). unfold bind at 1.
        rewrite (parseExpr_loop_binary _ _ _ _ _ _ (sym item.ASTERISK) _ _ ast.NewTimes
                   (ast.Integer c)
                   (stateAt (item.mkItem item.INT sc) [sym item.EOF] []));
          [| reflexivity | reflexivity | apply Ec].
        rewrite parseExpr_loop_unregistered by reflexivity. reflexivity.
    + cbn [ast.Node_Eval]. unfold ast.Less_Eval. cbn [ast.Node_Eval].
      unfold ast.Times_Eval. cbn [ast.Node_Eval].
      repeat (rewrite Hlit; cbv beta iota). reflexivity.
  - exists (ast.Less (ast.Times (ast.Integer a) (ast.Integer b)) (ast.Integer c)).
    split.
    + apply Parse_mono with 4%nat; [assumption |].
      apply (Parse_one_statement 2 _ _ _
               (stateAt (item.mkItem item.INT sc) [sym item.EOF] []));
        try reflexivity.
      rewrite (parseExpr_int _ _ _ _ _ _ Ha). unfold bind at 1.
      rewrite (parseExpr_loop_binary _ _ _ _ _ _ (sym item.ASTERISK) _ _ ast.NewTimes
                 (ast.Integer b)
                 (stateAt (item.mkItem item.INT sb)
                    [sym item.LT; item.mkItem item.INT sc; sym item.EOF] []));
        [| reflexivity | reflexivity |].
      * rewrite (parseExpr_loop_binary _ _ _ _ _ _ (sym item.LT) _ _ ast.NewLess
                   (ast.Integer c)
                   (stateAt (item.mkItem item.INT sc) [sym item.EOF] []));
          [| reflexivity | reflexivity |].
        -- rewrite parseExpr_loop_unregistered by reflexivity. reflexivity.
        -- cbn [stateOf].
           apply (parseExpr_mono 1 2 _ ltac:(lia) _ _ (Ec _)).
      * cbn [stateOf]. rewrite (parseExpr_int _ _ _ _ _ _ Hb). unfold bind at 1.
        rewrite parseExpr_loop_lower by (vm_compute; discriminate).
        reflexivity.
    + cbn [ast.Node_Eval]. unfold ast.Less_Eval. cbn [ast.Node_Eval].
      unfold ast.Times_Eval. cbn [ast.Node_Eval].
      repeat (rewrite Hlit; cbv beta iota).
      change (ast.Times_apply fmtO fmtT (obj.Integer a) (obj.Integer b))
        with (Some (obj.Integer (int64 (a * b)))).
      cbv beta iota. rewrite Hlit. reflexivity.
Qed.

End Parser.

(* ------------------------------------------------------------------ *)
(** ** A concrete instance and examples *)

(** The renderings and the number readers of the examples: each kind is
    rendered by its name or symbol, [%q] wraps in double quotes, integers
    are read in decimal and no float is read. *)
Definition kindName (t : item.Type_) : string :=
  match t with
  | item.EOF => "EOF" | item.IDENT => "IDENT" | item.INT => "INT"
  | item.FLOAT => "FLOAT" | item.STRING => "STRING"
  | item.ASSIGN => "=" | item.PLUS => "+" | item.MINUS => "-"
  | item.SLASH => "/" | item.ASTERISK => "*" | item.POWER => "**"
  | item.BANG => "!" | item.EQ => "==" | item.NOT_EQ => "!="
  | item.LT => "<" | item.GT => ">" | item.LT_EQ => "<=" | item.GT_EQ => ">="
  | item.AND => "&&" | item.OR => "||"
  | item.PLUS_ASSIGN => "+=" | item.MINUS_ASSIGN => "-="
  | item.ASTERISK_ASSIGN => "*=" | item.SLASH_ASSIGN => "/="
  | item.COMMA => "," | item.SEMICOLON => ";"
  | item.LPAREN => "(" | item.RPAREN => ")"
  | item.LBRACE => "{" | item.RBRACE => "}"
  | item.LBRACKET => "[" | item.RBRACKET => "]"
  | item.FUNCTION => "fn" | item.IF => "if" | item.ELSE => "else"
  | item.TRUE => "true" | item.FALSE => "false" | item.RETURN => "return"
  end.

Definition quoted (s : string) : string :=
  String (ascii_of_nat 34) (s ++ String (ascii_of_nat 34) "").

Fixpoint decimal_digits (s : string) (acc : Z) : option Z :=
  match s with
  | "" => Some acc
  | String c rest =>
      let n := nat_of_ascii c in
      if ((48 <=? n) && (n <=? 57))%nat
      then decimal_digits rest (10 * acc + Z.of_nat (n - 48))
      else None
  end.

Definition decimal (s : string) : option Z :=
  match s with
  | "" => None
  | _ => decimal_digits s 0
  end.

Definition noFloat (s : string) : option float := None.

Definition exampleParse : nat -> list item.Item -> option (ast.Node * list string) :=
  Parse kindName kindName quoted decimal noFloat.

Definition exampleParseExpr : nat -> Z -> M ast.Node :=
  parseExpr kindName kindName quoted decimal noFloat.

Definition tok (t : item.Type_) : item.Item := item.mkItem t (kindName t).

(** [a + b + c] parses to [((a + b) + c)]. *)
Lemma binary_operators_left_associative_witness :
  exampleParse 3 [ident "a"; tok item.PLUS; ident "b"; tok item.PLUS;
                  ident "c"; tok item.EOF] =
    Some (ast.Block [ast.Plus (ast.Plus (ast.Identifier "a") (ast.Identifier "b"))
                              (ast.Identifier "c")], []).
Proof.
  apply (proj2 (proj2 (proj2
           (binary_operators_left_associative kindName kindName quoted decimal
              noFloat item.PLUS ast.Plus eq_refl)))).
  lia.
Defined.

(** C5, the claim as stated fails.  [(] has a registered infix function
    and the precedence [CALL], yet [a ( b ( c] does not parse to a tree
    [((a ( b) ( c)]: the root holds the one call [a()], without
    arguments, and two errors are recorded. *)
Lemma call_token_not_left_associative :
  lookup precedences item.LPAREN = Some CALL
  /\ lookup (infixParsers kindName (exampleParseExpr 0) 0) item.LPAREN
       = Some (parseCall kindName (exampleParseExpr 0) 0)
  /\ exampleParse 10 [ident "a"; tok item.LPAREN; ident "b"; tok item.LPAREN;
                      ident "c"; tok item.EOF] =
       Some (ast.Block [ast.Call (ast.Identifier "a") []],
             ["expected next item to be ), got EOF instead";
              "expected next item to be ), got EOF instead"]).
Proof. repeat split. Qed.

(** [a ** b] *)
Lemma power_has_no_infix_parser_witness :
  exampleParse 4 [ident "a"; tok item.POWER; ident "b"; tok item.EOF] =
    Some (ast.Block [ast.Identifier "a"; ast.Identifier "b"],
          ["no parse prefix function for '**' found"]).
Proof.
  apply (proj2 (proj2 (proj2
           (power_has_no_infix_parser kindName kindName quoted decimal noFloat
              "a" "b" "**" "EOF" 4%nat (Nat.le_refl 4))))).
Defined.

(** [return 1; x] *)
Lemma Parse_returns_Block_witness :
  exists stmts p',
    exampleParse 16 [tok item.RETURN; item.mkItem item.INT "1";
                     tok item.SEMICOLON; ident "x"; tok item.EOF] =
      Some (ast.Block stmts, errs p')
    /\ item.Is (cur p') item.EOF = true.
Proof.
  destruct (Parse_returns_Block kindName kindName quoted decimal noFloat
              [tok item.RETURN; item.mkItem item.INT "1";
               tok item.SEMICOLON; ident "x"; tok item.EOF] 16%nat)
    as (stmts & p' & E & _ & Hstop & _).
  - cbn. lia.
  - exists stmts, p'. split; [exact E | exact Hstop].
Defined.

(** [f(x, 1)[0]] is parsed without error: no slot of its tree is nil. *)
Lemma Parse_no_error_populated_witness :
  populated
    (ast.Block
       [ast.Index (ast.Call (ast.Identifier "f") [ast.Identifier "x"; ast.Integer 1])
                  (ast.Integer 0)]) = true.
Proof.
  apply (proj2 (Parse_no_error_populated kindName kindName quoted decimal noFloat)
           8%nat
           [ident "f"; tok item.LPAREN; ident "x"; tok item.COMMA;
            item.mkItem item.INT "1"; tok item.RPAREN; tok item.LBRACKET;
            item.mkItem item.INT "0"; tok item.RBRACKET; tok item.EOF]
           _ []); reflexivity.
Defined.

(** C8, the claim as stated fails.  [if x { y }] is parsed without any
    error, and the else slot of its [IfExpr] node is nil. *)
Lemma if_without_else_has_nil_slot :
  exampleParse 10 [tok item.IF; ident "x"; tok item.LBRACE; ident "y";
                   tok item.RBRACE; tok item.EOF] =
    Some (ast.Block [ast.IfExpr (ast.Identifier "x")
                                (ast.Block [ast.Identifier "y"]) ast.Nil], [])
  /\ fully_populated
       (ast.Block [ast.IfExpr (ast.Identifier "x")
                              (ast.Block [ast.Identifier "y"]) ast.Nil]) = false.
Proof. split; reflexivity. Qed.



(* ------------------------------------------------------------------ *)
(** ** Examples of the further properties *)

(** At [(] : it has an infix function, so its precedence is above
    [LOWEST]; it has a prefix function as well. *)
Lemma tables_consistent_witness :
  LOWEST < precedenceOf item.LPAREN /\ prefixKind item.LPAREN = true.
Proof.
  destruct (tables_consistent kindName quoted decimal noFloat
              (exampleParseExpr 0) 0%nat item.LPAREN) as (H1 & _ & H3 & _).
  split; [apply H1 | apply H3]; discriminate.
Defined.

(** [a + b] from any precedence, with fuel 10. *)
Lemma parseExpr_terminates_witness :
  exists n p',
    exampleParseExpr 10 LOWEST
      (newParser [ident "a"; sym item.PLUS; ident "b"; sym item.EOF]) = Some (n, p')
    /\ (List.length (items p') <= 2)%nat
    /\ (0 <= List.length (errs p'))%nat.
Proof.
  apply (parseExpr_terminates kindName kindName quoted decimal noFloat 10%nat LOWEST
           (newParser [ident "a"; sym item.PLUS; ident "b"; sym item.EOF])).
  cbn. lia.
Defined.

(** In [a ; b] the state after [parseExpr] is the start state moved
    forward. *)
Lemma parser_only_moves_forward_witness :
  exists k new,
    mkParser (sym item.SEMICOLON) (ident "b") [sym item.EOF] [] =
      withErrs ([] ++ new)
        (Nat.iter k next_state
           (newParser [ident "a"; sym item.SEMICOLON; ident "b"; sym item.EOF])).
Proof.
  exact (proj1 (parser_only_moves_forward kindName kindName quoted decimal noFloat
                  1%nat)
           LOWEST
           (newParser [ident "a"; sym item.SEMICOLON; ident "b"; sym item.EOF])
           (ast.Identifier "a")
           (mkParser (sym item.SEMICOLON) (ident "b") [sym item.EOF] [])
           eq_refl).
Defined.

(** [a + b * c] parses to [a + (b * c)]. *)
Lemma binary_operators_precedence_witness :
  exampleParse 6 [ident "a"; sym item.PLUS; ident "b"; sym item.ASTERISK;
                  ident "c"; sym item.EOF] =
    Some (ast.Block [ast.Plus (ast.Identifier "a")
                       (ast.Times (ast.Identifier "b") (ast.Identifier "c"))], []).
Proof.
  exact (binary_operators_precedence kindName kindName quoted decimal noFloat
           item.PLUS ast.Plus item.ASTERISK ast.NewTimes "a" "b" "c" 6%nat
           eq_refl eq_refl (le_n 6)).
Defined.

(** [(a + b) * c], [a + (b * c)] and the unclosed [(a + b]. *)
Lemma parentheses_group_witness :
  exampleParse 8 [sym item.LPAREN; ident "a"; sym item.PLUS; ident "b";
                  sym item.RPAREN; sym item.ASTERISK; ident "c"; sym item.EOF] =
    Some (ast.Block [ast.Times (ast.Plus (ast.Identifier "a") (ast.Identifier "b"))
                       (ast.Identifier "c")], [])
  /\ exampleParse 8 [ident "a"; sym item.PLUS; sym item.LPAREN; ident "b";
                     sym item.ASTERISK; ident "c"; sym item.RPAREN; sym item.EOF] =
    Some (ast.Block [ast.Plus (ast.Identifier "a")
                       (ast.Times (ast.Identifier "b") (ast.Identifier "c"))], [])
  /\ exampleParse 8 [sym item.LPAREN; ident "a"; sym item.PLUS; ident "b";
                     sym item.EOF] =
    Some (ast.Block [], ["expected next item to be ), got EOF instead"]).
Proof.
  exact (parentheses_group kindName kindName quoted decimal noFloat
           item.PLUS ast.Plus item.ASTERISK ast.NewTimes "a" "b" "c" 8%nat
           eq_refl eq_refl (le_n 8)).
Defined.

(** [-a * b] parses to [(-a) * b]. *)
Lemma prefix_operators_precedence_witness :
  exampleParse 8 [sym item.MINUS; ident "a"; sym item.ASTERISK; ident "b";
                  sym item.EOF] =
    Some (ast.Block [ast.Times (ast.PrefixMinus (ast.Identifier "a"))
                       (ast.Identifier "b")], []).
Proof.
  exact (proj1 (prefix_operators_precedence kindName kindName quoted decimal noFloat
                  item.ASTERISK ast.NewTimes "a" "b" 8%nat eq_refl (le_n 8))).
Defined.

(** [a * f(x)] parses to [a * (f(x))]. *)
Lemma call_and_index_postfix_witness :
  exampleParse 8 [ident "a"; sym item.ASTERISK; ident "f"; sym item.LPAREN;
                  ident "x"; sym item.RPAREN; sym item.EOF] =
    Some (ast.Block [ast.Times (ast.Identifier "a")
                       (ast.Call (ast.Identifier "f") [ast.Identifier "x"])], []).
Proof.
  exact (proj1 (call_and_index_postfix kindName kindName quoted decimal noFloat
                  item.ASTERISK ast.NewTimes "a" "f" "x" "y" 8%nat eq_refl (le_n 8))).
Defined.

(** [a; b c;] holds three statements. *)
Lemma statements_semicolon_optional_witness :
  exampleParse 4 [ident "a"; sym item.SEMICOLON; ident "b"; ident "c";
                  sym item.SEMICOLON; sym item.EOF] =
    Some (ast.Block [ast.Identifier "a"; ast.Identifier "b"; ast.Identifier "c"], []).
Proof.
  exact (statements_semicolon_optional kindName kindName quoted decimal noFloat
           [("a", true); ("b", false); ("c", true)] 4%nat (le_n 4)).
Defined.

(** [) +] holds no statement and gives one error for each token. *)
Lemma stray_tokens_skipped_witness :
  exampleParse 3 [sym item.RPAREN; sym item.PLUS; sym item.EOF] =
    Some (ast.Block [],
          ["no parse prefix function for ')' found";
           "no parse prefix function for '+' found"]).
Proof.
  apply (stray_tokens_skipped kindName kindName quoted decimal noFloat
           [sym item.RPAREN; sym item.PLUS] 3%nat).
  - repeat constructor; discriminate.
  - cbn. lia.
Defined.

(** [f(x, y)] and [[x, y]]. *)
Lemma arguments_and_elements_in_order_witness :
  exampleParse 5 [ident "f"; sym item.LPAREN; ident "x"; sym item.COMMA; ident "y";
                  sym item.RPAREN; sym item.EOF] =
    Some (ast.Block [ast.Call (ast.Identifier "f")
                       [ast.Identifier "x"; ast.Identifier "y"]], [])
  /\ exampleParse 5 [sym item.LBRACKET; ident "x"; sym item.COMMA; ident "y";
                     sym item.RBRACKET; sym item.EOF] =
    Some (ast.Block [ast.List [ast.Identifier "x"; ast.Identifier "y"]], []).
Proof.
  exact (arguments_and_elements_in_order kindName kindName quoted decimal noFloat
           "f" ["x"; "y"] 5%nat (le_n 5)).
Defined.

(** [fn(1, y) {}] is accepted, with the parameters [1] and [y]. *)
Lemma function_parameters_unchecked_witness :
  exampleParse 3 [sym item.FUNCTION; sym item.LPAREN; item.mkItem item.INT "1";
                  sym item.COMMA; ident "y"; sym item.RPAREN;
                  sym item.LBRACE; sym item.RBRACE; sym item.EOF] =
    Some (ast.Block [ast.Function ["1"; "y"] (ast.Block [])], []).
Proof.
  apply (proj1 (function_parameters_unchecked kindName kindName quoted decimal
                  noFloat (item.mkItem item.INT "1") [ident "y"] 3%nat
                  ltac:(discriminate) (le_n 3))).
Defined.

(** [return x] and the bare [return]. *)
Lemma return_statement_kept_witness :
  (exists e stmts errs_,
     exampleParse 10 [sym item.RETURN; ident "x"; sym item.EOF] =
       Some (ast.Block (ast.Return e :: stmts), errs_))
  /\ exampleParse 10 [sym item.RETURN; sym item.EOF] =
       Some (ast.Block [ast.Return ast.Nil],
             ["no parse prefix function for 'EOF' found"]).
Proof.
  apply (return_statement_kept kindName kindName quoted decimal noFloat
           (sym item.RETURN) [ident "x"; sym item.EOF] 10%nat).
  - reflexivity.
  - cbn. lia.
Defined.

(** [if c { x; }] and [if c { x;] parse to the same tree, without error. *)
Lemma unclosed_block_accepted_witness :
  exampleParse 4 [sym item.IF; ident "c"; sym item.LBRACE; ident "x";
                  sym item.SEMICOLON; sym item.RBRACE; sym item.EOF] =
    Some (ast.Block [ast.IfExpr (ast.Identifier "c")
                       (ast.Block [ast.Identifier "x"]) ast.Nil], [])
  /\ exampleParse 4 [sym item.IF; ident "c"; sym item.LBRACE; ident "x";
                     sym item.SEMICOLON; sym item.EOF] =
    Some (ast.Block [ast.IfExpr (ast.Identifier "c")
                       (ast.Block [ast.Identifier "x"]) ast.Nil], []).
Proof.
  exact (unclosed_block_accepted kindName kindName quoted decimal noFloat
           "c" [("x", true)] 4%nat (le_n 4)).
Defined.

(** [if a {} else if b {}]. *)
Lemma else_if_chain_witness :
  exampleParse 4 [sym item.IF; ident "a"; sym item.LBRACE; sym item.RBRACE;
                  sym item.ELSE; sym item.IF; ident "b"; sym item.LBRACE;
                  sym item.RBRACE; sym item.EOF] =
    Some (ast.Block [ast.IfExpr (ast.Identifier "a") (ast.Block [])
                       (ast.IfExpr (ast.Identifier "b") (ast.Block []) ast.Nil)],
          []).
Proof.
  exact (else_if_chain kindName kindName quoted decimal noFloat
           "a" ["b"] 4%nat (le_n 4)).
Defined.

(** The integer tokens [42] and [4x]. *)
Lemma literal_tokens_witness :
  exampleParse 2 [item.mkItem item.INT "42"; sym item.EOF] =
    Some (ast.Block [ast.Integer 42], [])
  /\ exampleParse 2 [item.mkItem item.INT "4x"; sym item.EOF] =
    Some (ast.Block [], ["unable to parse " ++ quoted "4x" ++ " as integer"]).
Proof.
  split.
  - exact (proj1 (literal_tokens kindName kindName quoted decimal noFloat
                    "42" 2%nat (le_n 2))).
  - exact (proj1 (literal_tokens kindName kindName quoted decimal noFloat
                    "4x" 2%nat (le_n 2))).
Defined.

(** [2 < 3 * 4] is true. *)
Lemma product_compared_after_multiplying_witness :
  exists n,
    exampleParse 4 [item.mkItem item.INT "2"; sym item.LT; item.mkItem item.INT "3";
                    sym item.ASTERISK; item.mkItem item.INT "4"; sym item.EOF] =
      Some (ast.Block [n], [])
    /\ ast.specNode_Eval n [] = Some (obj.Boolean true, []).
Proof.
  exact (proj1 (product_compared_after_multiplying kindName kindName quoted decimal
                  noFloat ast.Scope ast.specFmtObject ast.specFmtType ast.specEval
                  "2" "3" "4" 2 3 4 [] 4%nat
                  (fun v e => eq_refl) eq_refl eq_refl eq_refl (le_n 4))).
Defined.

End parser.
